(** * PyRate: process-grid factorisation, multilooking and output naming

    A shallow embedding of
    - [break_number_into_factors] (pyrate/core/user_experience.py),
    - [multilooking] (tests/test_prepifg.py),
    - [mlooked_path] (pyrate/core/config.py, known here through its test),
    followed by the properties the specification states about them. *)

From Stdlib Require Import ZArith QArith Qround Lia Ascii String.
From stdpp Require Import base option list gmap strings pretty.

Local Open Scope Z_scope.

(** ** Python exceptions and results *)

Inductive exn : Type :=
| ValueError
| ZeroDivisionError
| TypeError
| IndexError.

Inductive result (A : Type) : Type :=
| Ok (a : A)
| Raise (e : exn).
Arguments Ok {A} a.
Arguments Raise {A} e.

Definition rbind {A B} (r : result A) (k : A → result B) : result B :=
  match r with
  | Ok a => k a
  | Raise e => Raise e
  end.

Notation "'let?' x := r 'in' k" := (rbind r (fun x => k))
  (at level 10, x pattern, r at level 100, k at level 200).

(** ** pyrate/core/user_experience.py *)

Module UserExperience.

(** The objects [break_number_into_factors] returns.  Numbers are the
    integral values the function handles, as [Z]: Python compares ints
    and floats by value.  [n / i] is Python's true division and yields a
    float64; it is only computed after [n % i == 0], so the quotient is
    an integer, and the float holds it exactly as long as it is below
    [2 ^ 53].  Beyond that the float is the nearest representable number
    and can differ from the quotient, which [Z] does not show: the
    properties that speak of a quotient are stated for [n < 2 ^ 53]
    (see [tried_below_2_53]). *)
Inductive pyobj : Type :=
| Pair (best : Z) (factors : list Z)   (* the tuple [n, [n]] *)
| Tuple2 (a b : Z)                     (* the tuple [2, 2] *)
| PList (l : list Z).                  (* the list [bestTuple] *)

(** What subscripting a returned object yields: a number or a list. *)
Inductive item : Type :=
| INum (z : Z)
| IList (l : list Z).

(** [rem[k]] *)
Definition getitem (rem : pyobj) (k : nat) : result item :=
  match rem, k with
  | Pair best _, O => Ok (INum best)
  | Pair _ factors, S O => Ok (IList factors)
  | Tuple2 a _, O => Ok (INum a)
  | Tuple2 _ b, S O => Ok (INum b)
  | PList l, _ =>
      match l !! k with
      | Some z => Ok (INum z)
      | None => Raise IndexError
      end
  | _, _ => Raise IndexError
  end.

(** [x + i] for an int [i] *)
Definition add_int (x : item) (i : Z) : result Z :=
  match x with
  | INum z => Ok (z + i)
  | IList _ => Raise TypeError
  end.

(** [[i] + x] *)
Definition list_concat (i : Z) (x : item) : result (list Z) :=
  match x with
  | IList l => Ok (i :: l)
  | INum _ => Raise TypeError
  end.

(** The cache: a dict keyed by [(n, left)]. *)
Abbreviation Memo := (gmap (Z * Z) pyobj).

(** The [while i * i <= n] loop.  [rec] is the recursive call; [fuel]
    bounds the number of iterations ([None] when it runs out).  [n / i]
    is the exact quotient, which is what the float64 of the source holds
    for [n < 2 ^ 53]. *)
Fixpoint while_loop (fuel : nat)
    (rec : Z → Memo → Z → option (result pyobj * Memo))
    (n : Z) (memo : Memo) (left i best : Z) (bestTuple : list Z)
  : option (result (Z * list Z) * Memo) :=
  if i * i <=? n then
    match fuel with
    | O => None
    | S fuel' =>
        if n mod i =? 0 then
          match rec (n / i) memo (left - 1) with
          | None => None
          | Some (Raise e, memo') => Some (Raise e, memo')
          | Some (Ok rem, memo') =>
              match (let? r0 := getitem rem 0 in add_int r0 i) with
              | Raise e => Some (Raise e, memo')
              | Ok s =>
                  if s <? best then
                    match (let? r1 := getitem rem 1 in list_concat i r1) with
                    | Raise e => Some (Raise e, memo')
                    | Ok bt => while_loop fuel' rec n memo' left (i + 1) s bt
                    end
                  else while_loop fuel' rec n memo' left (i + 1) best bestTuple
              end
          end
        else while_loop fuel' rec n memo left (i + 1) best bestTuple
    end
  else Some (Ok (best, bestTuple), memo).

(** The function body; [depth] bounds the recursion depth. *)
Fixpoint bnif (depth : nat) (n : Z) (memo : Memo) (left : Z)
  : option (result pyobj * Memo) :=
  match depth with
  | O => None
  | S depth' =>
      match memo !! (n, left) with
      | Some v => Some (Ok v, memo)
      | None =>
          if left =? 1 then Some (Ok (Pair n [n]), memo)
          else
            match while_loop (Z.to_nat n) (bnif depth') n memo left 2 n [n] with
            | None => None
            | Some (Raise e, memo') => Some (Raise e, memo')
            | Some (Ok (best, bestTuple), memo') =>
                if decide (bestTuple = [4]) then Some (Ok (Tuple2 2 2), memo')
                else if (length bestTuple =? 1)%nat
                     then Some (Ok (PList (bestTuple ++ [1])), memo')
                     else Some (Ok (PList bestTuple), memo')
            end
      end
  end.

(** [break_number_into_factors(n, memo, left)]: every recursive call
    divides [n] by at least 2, so depth [n + 1] is never exhausted
    (lemma [break_number_into_factors_total]). *)
Definition break_number_into_factors (n : Z) (memo : Memo) (left : Z)
  : option (result pyobj * Memo) :=
  bnif (S (Z.to_nat n)) n memo left.

End UserExperience.

(** ** tests/test_prepifg.py *)

Module TestPrepifg.

(** A float64 sample: [None] is NaN, [Some q] a finite value.  Arithmetic
    on finite values is exact; rounding and infinities are outside the
    model. *)
Definition sample : Type := option Q.

Definition nan : sample := None.

Definition isnan (s : sample) : bool :=
  match s with
  | None => true
  | Some _ => false
  end.

(** A 2-D numpy array: its shape and its rows. *)
Record ndarray : Type := mk_ndarray {
  nrows : nat;
  ncols : nat;
  data : list (list sample)
}.

(** The representation invariant of a 2-D array: [nrows] rows of [ncols]
    samples each. *)
Definition wf (a : ndarray) : Prop :=
  length (data a) = nrows a ∧ Forall (λ r, length r = ncols a) (data a).

(** [ones((r, c)) * nan] *)
Definition full_nan (r c : nat) : ndarray :=
  mk_ndarray r c (replicate r (replicate c nan)).

(** [l[lo:hi]] for [0 <= lo <= hi]: Python clips a slice to the list. *)
Definition slice {A} (lo hi : nat) (l : list A) : list A :=
  take (hi - lo) (drop lo l).

(** [src[ys:ye, xs:xe]], as the list of its rows *)
Definition slice2 (src : ndarray) (ys ye xs xe : nat) : list (list sample) :=
  slice xs xe <$> slice ys ye (data src).

(** [npsum(isnan(patch))] *)
Definition npsum_isnan (patch : list (list sample)) : Z :=
  Z.of_nat (length (filter (λ s, isnan s = true) (concat patch))).

(** [patch.reshape(size)]: row-major flattening; numpy raises ValueError
    when the patch does not hold [size] samples. *)
Definition reshape (patch : list (list sample)) (size : nat)
  : result (list sample) :=
  let flat := concat patch in
  if (length flat =? size)%nat then Ok flat else Raise ValueError.

(** The non-NaN values of a list of samples. *)
Definition valid (l : list sample) : list Q := omap id l.

Definition Qsum (l : list Q) : Q := foldr Qplus 0%Q l.

(** [nanmean(l)]: the mean of the non-NaN samples, NaN if there is none.
    The sum and the quotient are the exact rational ones; numpy rounds
    each addition and the division to float64, so the value it returns
    is this mean up to rounding (the two agree where no rounding occurs,
    as on the samples of the tests). *)
Definition nanmean (l : list sample) : sample :=
  match valid l with
  | [] => nan
  | vs => Some (Qsum vs / inject_Z (Z.of_nat (length vs)))%Q
  end.

(** [dest[row, col] = v]; numpy raises IndexError out of bounds. *)
Definition setitem (dest : ndarray) (row col : nat) (v : sample)
  : result ndarray :=
  if (row <? nrows dest)%nat && (col <? ncols dest)%nat
  then Ok (mk_ndarray (nrows dest) (ncols dest)
             (alter (λ r, <[col := v]> r) row (data dest)))
  else Raise IndexError.

(** [int(thresh)] on a Python number: truncation toward zero. *)
Definition py_int (q : Q) : Z := Z.quot (Qnum q) (Z.pos (Qden q)).

(** [int(floor(a / b))] for non-negative ints *)
Definition floor_div (a b : nat) : result nat :=
  if (b =? 0)%nat then Raise ZeroDivisionError else Ok (a / b)%nat.

(** [for x in l: s = body(s, x)] *)
Fixpoint for_range {S : Type} (l : list nat) (body : S → nat → result S)
    (s : S) : result S :=
  match l with
  | [] => Ok s
  | x :: l' => let? s' := body s x in for_range l' body s'
  end.

(** The body of the inner loop of [multilooking]. *)
Definition tile_step (src : ndarray) (xscale yscale : nat) (thresh num_cells : Z)
    (size row : nat) (dest : ndarray) (col : nat) : result ndarray :=
  let ys := (row * yscale)%nat in
  let ye := (ys + yscale)%nat in
  let xs := (col * xscale)%nat in
  let xe := (xs + xscale)%nat in
  let patch := slice2 src ys ye xs xe in
  let num_values := num_cells - npsum_isnan patch in
  if (thresh <=? num_values) && (0 <? num_values) then
    let? reshaped := reshape patch size in
    setitem dest row col (nanmean reshaped)
  else Ok dest.

(** [multilooking(src, xscale, yscale, thresh)].  The scale factors are
    counts; the threshold is any Python number (an int or a float). *)
Definition multilooking (src : ndarray) (xscale yscale : nat) (thresh : Q)
  : result ndarray :=
  let thresh := py_int thresh in
  let num_cells := Z.of_nat (xscale * yscale) in
  if (thresh >? num_cells) || (thresh <? 0) then Raise ValueError
  else
    let rows := nrows src in
    let cols := ncols src in
    let? rows_lowres := floor_div rows yscale in
    let? cols_lowres := floor_div cols xscale in
    let dest := full_nan rows_lowres cols_lowres in
    let size := (xscale * yscale)%nat in
    for_range (seq 0 rows_lowres)
      (λ dest row,
         for_range (seq 0 cols_lowres)
           (tile_step src xscale yscale thresh num_cells size row) dest)
      dest.

(** numpy's [assert_array_equal]: same shape, NaN equal to NaN, finite
    values equal as numbers. *)
Definition sample_eqb (a b : sample) : bool :=
  match a, b with
  | None, None => true
  | Some x, Some y => Qeq_bool x y
  | _, _ => false
  end.

Fixpoint list_eqb {A} (eqb : A → A → bool) (l k : list A) : bool :=
  match l, k with
  | [], [] => true
  | x :: l', y :: k' => eqb x y && list_eqb eqb l' k'
  | _, _ => false
  end.

Definition array_equal (a b : ndarray) : bool :=
  (nrows a =? nrows b)%nat && (ncols a =? ncols b)%nat
  && list_eqb (list_eqb sample_eqb) (data a) (data b).

(** The array of [LocalMultilookTests.test_multilooking_thresh]:
    [ones((3, 6))] with [data[0] = nan] and [data[1, 2:5] = nan]. *)
Definition test_data : ndarray :=
  let one : sample := Some 1%Q in
  mk_ndarray 3 6
    [ [nan; nan; nan; nan; nan; nan];
      [one; one; nan; nan; nan; one];
      [one; one; one; one; one; one] ].

End TestPrepifg.

(** ** pyrate/core/config.py *)

Module Config.

Local Open Scope string_scope.

(** [os.path.splitext], in three passes: cut the directory part at the
    last ["/"], skip the leading dots of the file name, cut the rest at
    its last ["."]. *)
Fixpoint rsplit_sep (p : string) : string * string :=
  match p with
  | "" => ("", "")
  | String c p' =>
      let '(head, tail) := rsplit_sep p' in
      match head with
      | "" => if decide (c = "/"%char) then (String c "", tail)
              else ("", String c tail)
      | _ => (String c head, tail)
      end
  end.

Fixpoint span_dots (name : string) : string * string :=
  match name with
  | String c name' =>
      if decide (c = "."%char)
      then let '(dots, rest) := span_dots name' in (String c dots, rest)
      else ("", name)
  | "" => ("", "")
  end.

Fixpoint rsplit_dot (s : string) : string * string :=
  match s with
  | "" => ("", "")
  | String c s' =>
      let '(root, ext) := rsplit_dot s' in
      match ext with
      | "" => if decide (c = "."%char) then ("", String c s')
              else (String c root, "")
      | _ => (String c root, ext)
      end
  end.

Definition splitext (p : string) : string * string :=
  let '(dir, name) := rsplit_sep p in
  let '(dots, rest) := span_dots name in
  let '(root, ext) := rsplit_dot rest in
  (dir +:+ dots +:+ root, ext).

(** Modelled from the spec: [mlooked_path] of pyrate/core/config.py is not
    among the sources; only its test [test_mlooked_path] is.  The spec
    gives its result as the path with the suffix [_<looks>rlks_<crop>cr]
    inserted before the original extension. *)
Definition mlooked_path (path : string) (looks crop_out : Z) : string :=
  let '(base, ext) := splitext path in
  base +:+ "_" +:+ pretty looks +:+ "rlks_" +:+ pretty crop_out +:+ "cr" +:+ ext.

(** The suffix the namer inserts. *)
Definition look_suffix (looks crop_out : Z) : string :=
  "_" +:+ pretty looks +:+ "rlks_" +:+ pretty crop_out +:+ "cr".

(** [c in s] *)
Fixpoint contains (c : ascii) (s : string) : bool :=
  match s with
  | "" => false
  | String c' s' => if decide (c' = c) then true else contains c s'
  end.

End Config.

(** ** Dictionaries and the file system *)

(** The exceptions of the functions below, and their results. *)
Inductive py_error : Type :=
| KeyError (key : string)
| ArityError
| FileNotFoundError (path : string)
| IsADirectoryError (path : string).

Inductive outcome (A : Type) : Type :=
| Return (a : A)
| Throw (e : py_error).
Arguments Return {A} a.
Arguments Throw {A} e.

(** [d[k]] on a dict *)
Definition dict_getitem {V} (d : gmap string V) (k : string) : outcome V :=
  match d !! k with
  | Some v => Return v
  | None => Throw (KeyError k)
  end.

(** ** tests/test_prepifg.py: [extents_from_params] *)

Module Extents.

(** [CustomExts = namedtuple("CustExtents", ["xfirst", "yfirst", "xlast",
    "ylast"])] of pyrate/constants.py *)
Record CustomExts (V : Type) : Type := mk_CustomExts {
  xfirst : V;
  yfirst : V;
  xlast : V;
  ylast : V
}.
Arguments mk_CustomExts {V} _ _ _ _.

(** [CustomExts( *args )]: the namedtuple takes exactly four arguments. *)
Definition CustomExts_of_args {V} (args : list V) : outcome (CustomExts V) :=
  match args with
  | [a; b; c; d] => Return (mk_CustomExts a b c d)
  | _ => Throw ArityError
  end.

(** [[params[k] for k in keys]] *)
Fixpoint getitems {V} (params : gmap string V) (keys : list string)
  : outcome (list V) :=
  match keys with
  | [] => Return []
  | k :: keys' =>
      match dict_getitem params k with
      | Throw e => Throw e
      | Return v =>
          match getitems params keys' with
          | Throw e => Throw e
          | Return vs => Return (v :: vs)
          end
      end
  end.

Section Keys.

(** The keys [cf.IFG_XFIRST], [cf.IFG_YFIRST], [cf.IFG_XLAST] and
    [cf.IFG_YLAST] are constants of pyrate/core/config.py, which is not
    among the sources. *)
Context (IFG_XFIRST IFG_YFIRST IFG_XLAST IFG_YLAST : string).

Definition extents_from_params {V} (params : gmap string V)
  : outcome (CustomExts V) :=
  let keys := [IFG_XFIRST; IFG_YFIRST; IFG_XLAST; IFG_YLAST] in
  match getitems params keys with
  | Throw e => Throw e
  | Return args => CustomExts_of_args args
  end.

End Keys.

End Extents.

(** ** pyrate/core/user_experience.py: [delete_tsincr_files] *)

Module Files.

Local Open Scope string_scope.

(** A directory entry is a regular file or a directory. *)
Inductive kind : Type :=
| RegularFile
| Directory.

(** The entries of a directory, in the order [iterdir] yields them, each
    with [str(file_path)]; and the directories of the file system by
    the path given to [pathlib.Path]. *)
Abbreviation listing := (list (string * kind)).
Abbreviation filesystem := (gmap string (list (string * kind))).

(** [sub in s] on strings: [sub] starts at some position of [s]. *)
Fixpoint str_in (sub s : string) : bool :=
  String.prefix sub s
  || match s with
     | "" => false
     | String _ s' => str_in sub s'
     end.

(** [file_path.unlink()] on the entries of the directory: a regular file
    is removed, a directory or a missing entry is an error. *)
Definition unlink (path : string) (entries : listing) : outcome listing :=
  match list_find (λ e, e.1 = path) entries with
  | Some (_, (_, RegularFile)) => Return (filter (λ e, e.1 ≠ path) entries)
  | Some (_, (_, Directory)) => Throw (IsADirectoryError path)
  | None => Throw (FileNotFoundError path)
  end.

(** The [for] loop over the entries [iterdir] listed; [entries] are those
    the directory holds now.  An exception ends the loop and leaves the
    directory as it is then. *)
Fixpoint delete_loop (listed : listing) (entries : listing)
  : outcome unit * listing :=
  match listed with
  | [] => (Return (), entries)
  | (file_path, _) :: listed' =>
      if str_in "tsincr" file_path then
        match unlink file_path entries with
        | Return entries' => delete_loop listed' entries'
        | Throw e => (Throw e, entries)
        end
      else delete_loop listed' entries
  end.

(** [delete_tsincr_files(params)]: the result and the file system left. *)
Definition delete_tsincr_files (params : gmap string string)
    (fs : filesystem) : outcome unit * filesystem :=
  match dict_getitem params "outdir" with
  | Throw e => (Throw e, fs)
  | Return out_dir =>
      match fs !! out_dir with
      | None => (Throw (FileNotFoundError out_dir), fs)
      | Some listed =>
          let '(r, entries) := delete_loop listed listed in
          (r, <[out_dir := entries]> fs)
      end
  end.

(** The entries whose path does not contain ["tsincr"]. *)
Definition without_tsincr (entries : listing) : listing :=
  filter (λ e, str_in "tsincr" e.1 = false) entries.

(** The paths [iterdir] gives the entries named [names] of the directory
    whose own path is [dir]. *)
Definition child_paths (dir : string) (names : listing) : listing :=
  (λ nk, (dir +:+ "/" +:+ nk.1, nk.2)) <$> names.

(** A small output directory: two time-series increments and a rate map. *)
Definition example_params : gmap string string := {["outdir" := "out"]}.

Definition example_names : listing :=
  [("tsincr_0.tif", RegularFile); ("stack_rate.tif", RegularFile);
   ("tsincr_1.tif", RegularFile)].

Definition example_fs : filesystem :=
  {["out" := child_paths "out" example_names]}.

End Files.

Import UserExperience TestPrepifg Config.
Import Extents Files.

(** * Notions used in the statements *)

(** ** The factorisation *)

(** [j] is a divisor of [n] the loop tries: [2 <= j], [j * j <= n] and
    [n % j == 0]. *)
Definition tried (n j : Z) : Prop := 2 ≤ j ∧ j * j ≤ n ∧ n mod j = 0.

(** What [best] and [bestTuple] hold once the loop has tried every [j]
    below [i]. *)
Definition loop_inv (n i best : Z) (bestTuple : list Z) : Prop :=
  (∀ j, tried n j → j < i → best ≤ n / j + j) ∧
  ((best = n ∧ bestTuple = [n]) ∨
   (∃ j, tried n j ∧ j < i ∧ best = n / j + j ∧ best < n
         ∧ bestTuple = [j; n / j])).

(** The result of the default call, by cases. *)
Inductive default_result (n : Z) : pyobj → Prop :=
| Default_four : n = 4 → default_result n (Tuple2 2 2)
| Default_alone :
    n ≠ 4 → (∀ j, ¬ tried n j) → default_result n (PList [n; 1])
| Default_split j :
    n ≠ 4 → tried n j → (∀ j', tried n j' → n / j + j ≤ n / j' + j') →
    n / j + j < n →
    default_result n (PList [j; n / j]).

(** ** Arrays and tiles *)

(** [a[r, c]] when the index is within the array *)
Definition get (a : ndarray) (r c : nat) : option sample :=
  data a !! r ≫= λ row, row !! c.

(** [a[r, c]], NaN outside the array *)
Definition cell (a : ndarray) (r c : nat) : sample :=
  default nan (get a r c).

(** The samples of the tile of output cell [(row, col)]: the input cells
    [(row * yscale + dy, col * xscale + dx)] for [dy < yscale] and
    [dx < xscale], row by row. *)
Definition tile (src : ndarray) (xscale yscale row col : nat) : list sample :=
  concat ((λ dy, (λ dx, cell src (row * yscale + dy) (col * xscale + dx))
                   <$> seq 0 xscale)
            <$> seq 0 yscale).

(** The number of non-missing samples, and their arithmetic mean. *)
Definition count_valid (t : list sample) : Z := Z.of_nat (length (valid t)).

Definition mean_valid (t : list sample) : Q :=
  (Qsum (valid t) / inject_Z (count_valid t))%Q.

(** The value the loop body gives output cell [(row, col)], in the code's
    own terms. *)
Definition out_cell (src : ndarray) (xscale yscale : nat) (thresh : Z)
    (row col : nat) : sample :=
  let patch :=
    slice2 src (row * yscale) (row * yscale + yscale)
      (col * xscale) (col * xscale + xscale) in
  let num_values := Z.of_nat (xscale * yscale) - npsum_isnan patch in
  if (thresh <=? num_values) && (0 <? num_values)
  then nanmean (concat patch) else nan.

(** The smallest grids used below: [ones((1, 1))] of
    [test_nan_threshold_inputs], and a 2 x 2 grid with one valid sample. *)
Definition ones_1_1 : ndarray := mk_ndarray 1 1 [[Some 1%Q]].


(** The array of [ThresholdTests.test_nan_threshold], [ones((2, 10))] with
    [data[0, 3:] = nan] and [data[1, 7:] = nan], and the row the test
    expects from [_resample] for the threshold 0.25. *)
Definition nan_threshold_data : ndarray :=
  let one : sample := Some 1%Q in
  mk_ndarray 2 10
    [ [one; one; one; nan; nan; nan; nan; nan; nan; nan];
      [one; one; one; one; one; one; one; nan; nan; nan] ].

Definition nan_threshold_expected_quarter : list sample :=
  [Some 1%Q; nan; nan; nan; nan].

(** * Properties of [break_number_into_factors] *)

Section Factorizer.

Implicit Types (n i j best : Z) (memo : Memo) (bestTuple : list Z).

(** The cache is read, never written. *)
Lemma while_loop_memo fuel rec n memo left i best bestTuple r memo' :
  (∀ m mm l r' mm', rec m mm l = Some (r', mm') → mm' = mm) →
  while_loop fuel rec n memo left i best bestTuple = Some (r, memo') →
  memo' = memo.
Proof.
  intros Hrec. revert memo i best bestTuple.
  induction fuel as [|fuel IH]; intros memo i best bestTuple; simpl.
  - destruct (i * i <=? n); [discriminate|]. by intros [= _ <-].
  - destruct (i * i <=? n); [|by intros [= _ <-]].
    destruct (n mod i =? 0); [|by apply IH].
    destruct (rec (n / i) memo (left - 1)) as [[[rem|e] m1]|] eqn:Hcall;
      [| |discriminate].
    + apply Hrec in Hcall as ->.
      destruct (rbind (getitem rem 0) _) as [s|e]; [|by intros [= _ <-]].
      destruct (s <? best); [|by apply IH].
      destruct (rbind (getitem rem 1) _) as [bt|e]; [by apply IH|].
      by intros [= _ <-].
    + apply Hrec in Hcall as ->. by intros [= _ <-].
Qed.

Lemma bnif_memo depth n memo left r memo' :
  bnif depth n memo left = Some (r, memo') → memo' = memo.
Proof.
  revert n memo left r memo'.
  induction depth as [|depth IH]; intros n memo left r memo'; simpl; [done|].
  destruct (memo !! (n, left)); [by intros [= _ <-]|].
  destruct (left =? 1); [by intros [= _ <-]|].
  destruct (while_loop _ _ _ _ _ _ _ _) as [[[[best bt]|e] m1]|] eqn:Hloop;
    [| |discriminate].
  - apply while_loop_memo in Hloop as ->; [|exact IH].
    repeat case_match; by intros [= _ <-].
  - apply while_loop_memo in Hloop as ->; [|exact IH]. by intros [= _ <-].
Qed.

(** The loop leaves by its condition before [fuel] runs out, and the
    recursion ends before [depth] does. *)
Lemma while_loop_total fuel rec n memo left i best bestTuple :
  2 ≤ i → n < i + Z.of_nat fuel →
  (∀ i' mm, 2 ≤ i' → i' * i' ≤ n → is_Some (rec (n / i') mm (left - 1))) →
  is_Some (while_loop fuel rec n memo left i best bestTuple).
Proof.
  intros Hi Hfuel Hrec. revert memo i best bestTuple Hi Hfuel.
  induction fuel as [|fuel IH]; intros memo i best bestTuple Hi Hfuel; simpl.
  - destruct (Z.leb_spec (i * i) n); [nia|]. by eexists.
  - destruct (Z.leb_spec (i * i) n); [|by eexists].
    destruct (n mod i =? 0); [|apply IH; lia].
    destruct (Hrec i memo) as [[[rem|e] m1] ->]; [done..| |by eexists].
    destruct (rbind (getitem rem 0) _) as [s|e]; [|by eexists].
    destruct (s <? best); [|apply IH; lia].
    destruct (rbind (getitem rem 1) _) as [bt|e]; [apply IH; lia|by eexists].
Qed.

Lemma bnif_total depth n memo left :
  (Z.to_nat n < depth)%nat → is_Some (bnif depth n memo left).
Proof.
  revert n memo left.
  induction depth as [|depth IH]; intros n memo left Hd; simpl; [lia|].
  destruct (memo !! (n, left)); [by eexists|].
  destruct (left =? 1); [by eexists|].
  destruct (while_loop_total (Z.to_nat n) (bnif depth) n memo left 2 n [n])
    as [[[[best bt]|e] m1] ->]; [lia|lia| | |by eexists].
  - intros i' mm Hi' Hsq. apply IH.
    assert (n / i' < n) by (apply Z.div_lt; nia).
    assert (0 ≤ n / i') by (apply Z.div_pos; nia). lia.
  - repeat case_match; by eexists.
Qed.

Lemma break_number_into_factors_total n memo left :
  is_Some (break_number_into_factors n memo left).
Proof. apply bnif_total. lia. Qed.

(** ** The default call: [left = 2] and an empty cache *)

Lemma while_loop_left2 fuel rec n i best bestTuple :
  (∀ j, tried n j → rec (n / j) ∅ 1 = Some (Ok (Pair (n / j) [n / j]), ∅)) →
  2 ≤ i → n < i + Z.of_nat fuel →
  loop_inv n i best bestTuple →
  ∃ i' best' bestTuple',
    while_loop fuel rec n ∅ 2 i best bestTuple
      = Some (Ok (best', bestTuple'), ∅)
    ∧ 2 ≤ i' ∧ n < i' * i' ∧ loop_inv n i' best' bestTuple'.
Proof.
  intros Hrec. revert i best bestTuple.
  induction fuel as [|fuel IH]; intros i best bestTuple Hi Hfuel Hinv; simpl.
  - destruct (Z.leb_spec (i * i) n); [nia|]. by exists i, best, bestTuple.
  - destruct (Z.leb_spec (i * i) n) as [Hsq|]; [|by exists i, best, bestTuple].
    destruct (Z.eqb_spec (n mod i) 0) as [Hmod|Hmod].
    + change (2 - 1) with 1. rewrite Hrec by done. simpl.
      destruct (Z.ltb_spec (n / i + i) best) as [Hlt|Hge].
      * apply IH; [lia|lia|]. destruct Hinv as [Hmin Hshape]. split.
        -- intros j Hj Hji. destruct (decide (j = i)) as [->|]; [lia|].
           specialize (Hmin j Hj). lia.
        -- right. exists i. repeat split; try done; try lia.
           destruct Hshape as [[-> _]|(j & _ & _ & _ & ? & _)]; lia.
      * apply IH; [lia|lia|]. destruct Hinv as [Hmin Hshape]. split; [|].
        -- intros j Hj Hji. destruct (decide (j = i)) as [->|]; [lia|].
           specialize (Hmin j Hj). lia.
        -- destruct Hshape as [?|(j & ? & ? & ?)]; [by left|].
           right. exists j. split; [done|]. split; [lia|done].
    + apply IH; [lia|lia|]. destruct Hinv as [Hmin Hshape]. split.
      * intros j Hj Hji. destruct (decide (j = i)) as [->|].
        -- by destruct Hj as (_ & _ & ?).
        -- apply Hmin; [done|lia].
      * destruct Hshape as [?|(j & ? & ? & ?)]; [by left|].
        right. exists j. split; [done|]. split; [lia|done].
Qed.

(** Two factors, each at least 2, add up to at most their product, with
    equality only for 2 and 2. *)
Lemma tried_sum n j : tried n j → n / j + j ≤ n ∧ (n / j + j = n ↔ n = 4).
Proof.
  intros (Hj & Hsq & Hmod).
  assert (Hn : n = j * (n / j)).
  { rewrite (Z.div_mod n j) at 1 by lia. lia. }
  assert (j ≤ n / j) by nia. split; [nia|]. split; [nia|].
  intros ->. assert (j = 2) as -> by nia. reflexivity.
Qed.

Lemma tried_mul n j : tried n j → j * (n / j) = n.
Proof.
  intros (Hj & Hsq & Hmod). rewrite (Z.div_mod n j) at 2 by lia. lia.
Qed.

Lemma break_number_into_factors_default n :
  ∃ v, break_number_into_factors n ∅ 2 = Some (Ok v, ∅) ∧ default_result n v.
Proof.
  unfold break_number_into_factors.
  destruct (while_loop_left2 (Z.to_nat n) (bnif (Z.to_nat n)) n 2 n [n])
    as (i' & best & bt & Hloop & Hi' & Hexit & Hmin & Hshape).
  - intros j (Hj & Hsq & _).
    destruct (Z.to_nat n) eqn:Hn; [nia|]. simpl. by rewrite lookup_empty.
  - done.
  - lia.
  - split; [|by left]. intros j (? & _) ?. lia.
  - assert (Hall : ∀ j, tried n j → best ≤ n / j + j).
    { intros j Hj. apply Hmin; [done|]. destruct Hj as (? & ? & _). nia. }
    simpl. rewrite lookup_empty. simpl. rewrite Hloop.
    destruct Hshape as [[-> ->]|(j & Hj & _ & -> & Hlt & ->)].
    + destruct (decide (n = 4)) as [->|Hn4].
      * eexists. split; [done|]. by constructor.
      * rewrite decide_False by congruence. simpl.
        eexists. split; [done|]. apply Default_alone; [done|].
        intros j Hj. pose proof (Hall j Hj).
        apply tried_sum in Hj as [? ?]. lia.
    + rewrite decide_False by done. simpl.
      eexists. split; [done|].
      apply Default_split; try done.
      intros ->. apply tried_sum in Hj. lia.
Qed.

(** Evaluations of the function; the last one shows the recursion of a
    three-way split adding a list to a number. *)
Example break_6 : break_number_into_factors 6 ∅ 2 = Some (Ok (PList [2; 3]), ∅).
Proof. vm_compute. reflexivity. Qed.

Example break_36 : break_number_into_factors 36 ∅ 2 = Some (Ok (PList [6; 6]), ∅).
Proof. vm_compute. reflexivity. Qed.

Example break_8_left3 : break_number_into_factors 8 ∅ 3 = Some (Raise TypeError, ∅).
Proof. vm_compute. reflexivity. Qed.

Lemma prime_not_tried p j : Z.prime p → ¬ tried p j.
Proof.
  intros [Hp Hdivs] (Hj & Hsq & Hmod).
  apply (Hdivs j); [nia|]. apply Z.mod_divide; [lia|done].
Qed.

Lemma prime_not_4 : ¬ Z.prime 4.
Proof. intros Hp. apply (prime_not_tried 4 2 Hp). by repeat split. Qed.

(** Below [2 ^ 53] every number the loop computes from a divisor it
    tries, the quotient [n / j] and the sum [n / j + j], is an integer
    below [2 ^ 53] again: a float64 holds it exactly, and the true
    division, the addition and the comparison of the source are exact. *)
Lemma tried_below_2_53 (n j : Z) :
  tried n j → n < 2 ^ 53 →
  j * (n / j) = n ∧ j ≤ n / j ∧ 0 < n / j < 2 ^ 53 ∧ 0 < n / j + j < 2 ^ 53.
Proof.
  intros (Hj & Hsq & Hmod) Hn.
  assert (Hq : n = j * (n / j)) by (apply Z.div_exact; [lia|done]).
  assert (j ≤ n / j) by (apply Z.div_le_lower_bound; lia).
  split; [lia|]. split; [done|]. nia.
Qed.

(** C5, as the code has it, for [n] below [2 ^ 53], where the float
    quotient [n / i] is exact.  With [left = 1] the call returns the pair
    [(n, [n])].  The default call ([left = 2], empty cache) returns the
    factors alone, without their sum: [(2, 2)] for [n = 4]; the list
    [[n, 1]] when no [j] with [2 <= j], [j * j <= n] divides [n];
    otherwise the list [[j, n / j]] for such a divisor [j] whose sum
    [n / j + j] is below [n] and minimal among all of them. *)
Theorem break_number_into_factors_result (n : Z)
    (Hn : 1 ≤ n) (Hfloat : n < 2 ^ 53) :
  break_number_into_factors n ∅ 1 = Some (Ok (Pair n [n]), ∅)
  ∧ ∃ v, break_number_into_factors n ∅ 2 = Some (Ok v, ∅)
         ∧ ((n = 4 ∧ v = Tuple2 2 2)
            ∨ (n ≠ 4 ∧ (∀ j, ¬ tried n j) ∧ v = PList [n; 1])
            ∨ (∃ j, tried n j ∧ n / j + j < n
                    ∧ (∀ j', tried n j' → n / j + j ≤ n / j' + j')
                    ∧ v = PList [j; n / j])).
Proof.
  split.
  - unfold break_number_into_factors. simpl. by rewrite lookup_empty.
  - destruct (break_number_into_factors_default n) as (v & Hv & Hres).
    exists v. split; [done|].
    destruct Hres as [?|? ?|j ? ? ? ?]; [by left|by right; left|].
    right; right. by exists j.
Qed.

Lemma break_number_into_factors_result_witness :
  1 ≤ 12 ∧ 12 < 2 ^ 53
  ∧ break_number_into_factors 12 ∅ 1 = Some (Ok (Pair 12 [12]), ∅)
  ∧ ∃ v, break_number_into_factors 12 ∅ 2 = Some (Ok v, ∅)
         ∧ ((12 = 4 ∧ v = Tuple2 2 2)
            ∨ (12 ≠ 4 ∧ (∀ j, ¬ tried 12 j) ∧ v = PList [12; 1])
            ∨ (∃ j, tried 12 j ∧ 12 / j + j < 12
                    ∧ (∀ j', tried 12 j' → 12 / j + j ≤ 12 / j' + j')
                    ∧ v = PList [j; 12 / j])).
Proof.
  split; [lia|]. split; [lia|].
  apply (break_number_into_factors_result 12); lia.
Defined.

(** C5 as stated fails: the default call on 6 returns the list [[2, 3]],
    not a pair of a sum and a factor list. *)
Lemma break_6_is_not_a_pair :
  ¬ ∃ best factors memo',
      break_number_into_factors 6 ∅ 2 = Some (Ok (Pair best factors), memo').
Proof. intros (best & factors & memo' & H). vm_compute in H. discriminate. Qed.

(** C6: the default call on 4 returns the tuple [(2, 2)], and so neither
    split of 4 into 1 and 4. *)
Theorem break_4_is_2_2 :
  break_number_into_factors 4 ∅ 2 = Some (Ok (Tuple2 2 2), ∅)
  ∧ break_number_into_factors 4 ∅ 2 ≠ Some (Ok (PList [1; 4]), ∅)
  ∧ break_number_into_factors 4 ∅ 2 ≠ Some (Ok (PList [4; 1]), ∅)
  ∧ break_number_into_factors 4 ∅ 2 ≠ Some (Ok (Tuple2 1 4), ∅)
  ∧ break_number_into_factors 4 ∅ 2 ≠ Some (Ok (Tuple2 4 1), ∅).
Proof.
  assert (H : break_number_into_factors 4 ∅ 2 = Some (Ok (Tuple2 2 2), ∅))
    by (vm_compute; reflexivity).
  rewrite H. repeat split; discriminate.
Qed.

(** C7, as the code has it: for a prime [p] the default call returns the
    list [[p, 1]], the prime first; for 1 it returns [[1, 1]], and with
    any other [left] a result made of 1s only. *)
Theorem break_prime_is_p_1 (p : Z) (Hp : Z.prime p) :
  break_number_into_factors p ∅ 2 = Some (Ok (PList [p; 1]), ∅)
  ∧ break_number_into_factors 1 ∅ 2 = Some (Ok (PList [1; 1]), ∅)
  ∧ ∀ left,
      break_number_into_factors 1 ∅ left
      = Some (Ok (if left =? 1 then Pair 1 [1] else PList [1; 1]), ∅).
Proof.
  split; [|split].
  - destruct (break_number_into_factors_default p) as (v & Hv & Hres).
    rewrite Hv. destruct Hres as [->|? ?|j ? Hj ? ?].
    + by destruct prime_not_4.
    + done.
    + by destruct (prime_not_tried p j).
  - vm_compute. reflexivity.
  - intros left. unfold break_number_into_factors. simpl.
    rewrite lookup_empty. by destruct (left =? 1).
Qed.

Lemma break_prime_is_p_1_witness :
  Z.prime 3
  ∧ break_number_into_factors 3 ∅ 2 = Some (Ok (PList [3; 1]), ∅)
  ∧ break_number_into_factors 1 ∅ 2 = Some (Ok (PList [1; 1]), ∅)
  ∧ ∀ left,
      break_number_into_factors 1 ∅ left
      = Some (Ok (if left =? 1 then Pair 1 [1] else PList [1; 1]), ∅).
Proof.
  split; [exact Z.prime_3|]. apply (break_prime_is_p_1 3). exact Z.prime_3.
Defined.

(** C7 as stated fails: for the prime 3 the default call does not return
    the list [[1, 3]]. *)
Lemma break_3_is_not_1_3 :
  Z.prime 3
  ∧ ¬ ∃ memo', break_number_into_factors 3 ∅ 2 = Some (Ok (PList [1; 3]), memo').
Proof.
  split; [exact Z.prime_3|]. intros (memo' & H). vm_compute in H. discriminate.
Qed.

(** C8 fails on the code: a call that completes leaves the cache as it
    found it, so a key that was absent before the call is absent after
    it, and no result is ever stored. *)
Theorem break_number_into_factors_never_stores (n : Z) (memo : Memo)
    (left : Z) (r : result pyobj) (memo' : Memo)
    (Hcall : break_number_into_factors n memo left = Some (r, memo')) :
  memo' = memo ∧ (memo !! (n, left) = None → memo' !! (n, left) = None).
Proof.
  apply bnif_memo in Hcall as ->. by split.
Qed.

Lemma break_number_into_factors_never_stores_witness :
  break_number_into_factors 6 ∅ 2 = Some (Ok (PList [2; 3]), ∅)
  ∧ (∅ : Memo) = ∅
  ∧ ((∅ : Memo) !! (6, 2) = None → (∅ : Memo) !! (6, 2) = None).
Proof.
  split; [vm_compute; reflexivity|].
  apply (break_number_into_factors_never_stores 6 ∅ 2 (Ok (PList [2; 3])) ∅).
  vm_compute. reflexivity.
Defined.



End Factorizer.

(** * Properties of [multilooking] *)

Section Multilooking.

Local Open Scope nat_scope.

Implicit Types (src dest : ndarray) (xscale yscale row col : nat).

Lemma slice_seq {A} (d : A) (lo n : nat) (l : list A) :
  lo + n ≤ length l →
  slice lo (lo + n) l = (λ i, default d (l !! (lo + i))) <$> seq 0 n.
Proof.
  intros Hlen. unfold slice. replace (lo + n - lo) with n by lia.
  apply list_eq. intros i.
  rewrite lookup_take, lookup_drop, list_lookup_fmap.
  destruct (decide (i < n)) as [Hi|Hi].
  - rewrite lookup_seq_lt by done. simpl.
    destruct (l !! (lo + i)) eqn:E; [done|].
    apply lookup_ge_None in E. lia.
  - by rewrite lookup_seq_ge by lia.
Qed.

(** Within the array, the code's slices hold the tile's samples. *)
Lemma slice2_tile src xscale yscale row col :
  wf src →
  row * yscale + yscale ≤ nrows src → col * xscale + xscale ≤ ncols src →
  concat (slice2 src (row * yscale) (row * yscale + yscale)
            (col * xscale) (col * xscale + xscale))
  = tile src xscale yscale row col.
Proof.
  intros [Hrows Hcols] Hr Hc. unfold slice2, tile. f_equal.
  rewrite (slice_seq [] (row * yscale) yscale) by lia.
  rewrite <- list_fmap_compose. apply list_fmap_ext. intros i dy Hdy.
  apply lookup_seq in Hdy as [-> Hdy]. simpl.
  destruct (data src !! (row * yscale + i)) as [r|] eqn:Er.
  - assert (length r = ncols src) as Hlen.
    { by eapply (proj1 (Forall_lookup _ _) Hcols). }
    simpl. rewrite (slice_seq nan (col * xscale) xscale) by lia.
    apply list_fmap_ext. intros k dx Hdx.
    apply lookup_seq in Hdx as [-> Hdx]. simpl.
    unfold cell, get. by rewrite Er.
  - apply lookup_ge_None in Er. lia.
Qed.

Lemma length_concat_fmap {A B} (f : A → list B) (n : nat) (l : list A) :
  (∀ x, length (f x) = n) → length (concat (f <$> l)) = length l * n.
Proof.
  intros Hf. induction l as [|x l IH]; csimpl; [done|].
  rewrite length_app, IH, Hf. lia.
Qed.

Lemma tile_length src xscale yscale row col :
  length (tile src xscale yscale row col) = xscale * yscale.
Proof.
  unfold tile. rewrite (length_concat_fmap _ xscale).
  - rewrite length_seq. lia.
  - intros dy. by rewrite length_fmap, length_seq.
Qed.

(** A sample is NaN or valid, never both. *)
Lemma count_nan_valid (l : list sample) :
  length (filter (λ s, isnan s = true) l) + length (valid l) = length l.
Proof.
  induction l as [|[q|] l IH]; [done| |].
  - rewrite filter_cons_False by done. unfold valid in *. csimpl. lia.
  - rewrite filter_cons_True by done. unfold valid in *. csimpl. lia.
Qed.

Lemma nanmean_mean (l : list sample) :
  nanmean l = if (0 <? count_valid l)%Z then Some (mean_valid l) else nan.
Proof.
  unfold nanmean, mean_valid, count_valid. by destruct (valid l).
Qed.

(** The last full tile ends within the array. *)
Lemma lowres_bound (size scale k : nat) :
  1 ≤ scale → k < size / scale → k * scale + scale ≤ size.
Proof.
  intros Hs Hk. pose proof (Nat.Div0.mul_div_le size scale). nia.
Qed.

Section Loops.

Context (src : ndarray) (xscale yscale : nat) (thresh : Z).
Context (Hwf : wf src) (Hx : 1 ≤ xscale) (Hy : 1 ≤ yscale).

Let rows_lowres := nrows src / yscale.
Let cols_lowres := ncols src / xscale.

(** The code's count and mean are those of the tile. *)
Lemma out_cell_tile row col :
  row < rows_lowres → col < cols_lowres →
  out_cell src xscale yscale thresh row col
  = let t := tile src xscale yscale row col in
    if ((thresh <=? count_valid t) && (0 <? count_valid t))%Z
    then Some (mean_valid t) else nan.
Proof.
  intros Hr Hc. unfold out_cell, npsum_isnan.
  apply lowres_bound in Hr; [|done]. apply lowres_bound in Hc; [|done].
  rewrite slice2_tile by done. simpl.
  pose proof (count_nan_valid (tile src xscale yscale row col)) as Hcount.
  rewrite tile_length in Hcount.
  replace (Z.of_nat (xscale * yscale) - _)%Z
    with (count_valid (tile src xscale yscale row col))
    by (unfold count_valid; lia).
  rewrite nanmean_mean.
  destruct (thresh <=? _)%Z; [|done]. simpl. by destruct (0 <? _)%Z.
Qed.

(** One pass of the loop body writes its cell and no other. *)
Lemma tile_step_spec dest row col :
  row < rows_lowres → col < cols_lowres →
  wf dest → row < nrows dest → col < ncols dest →
  get dest row col = Some nan →
  ∃ dest',
    tile_step src xscale yscale thresh (Z.of_nat (xscale * yscale))
      (xscale * yscale) row dest col = Ok dest'
    ∧ nrows dest' = nrows dest ∧ ncols dest' = ncols dest ∧ wf dest'
    ∧ get dest' row col = Some (out_cell src xscale yscale thresh row col)
    ∧ ∀ r c, r ≠ row ∨ c ≠ col → get dest' r c = get dest r c.
Proof.
  intros Hr Hc [Hrows Hcols] Hrow Hcol Hnan. unfold tile_step, out_cell.
  destruct (_ && _)%Z.
  - unfold reshape.
    apply lowres_bound in Hr; [|done]. apply lowres_bound in Hc; [|done].
    rewrite slice2_tile by done. rewrite tile_length, Nat.eqb_refl. simpl.
    unfold setitem.
    rewrite (proj2 (Nat.ltb_lt _ _) Hrow), (proj2 (Nat.ltb_lt _ _) Hcol).
    simpl. eexists. split; [done|]. simpl. split; [done|]. split; [done|].
    destruct (lookup_lt_is_Some_2 (data dest) row) as [r Er]; [lia|].
    assert (length r = ncols dest) as Hlen.
    { by eapply (proj1 (Forall_lookup _ _) Hcols). }
    split; [|split].
    + split; simpl; [by rewrite length_alter|].
      apply Forall_alter; [done|]. intros x _ Hx'. by rewrite length_insert.
    + unfold get. simpl. rewrite list_lookup_alter, decide_True by done.
      rewrite Er. simpl. by rewrite list_lookup_insert_eq by lia.
    + intros r' c' Hne. unfold get. simpl.
      destruct (decide (r' = row)) as [->|Hr'].
      * rewrite list_lookup_alter, decide_True by done. rewrite Er. simpl.
        destruct Hne as [?|?]; [done|]. by rewrite list_lookup_insert_ne.
      * by rewrite list_lookup_alter_ne.
  - exists dest. by repeat split.
Qed.

(** The inner loop fills the cells of row [row] for the columns in [l]. *)
Lemma inner_loop_spec row (l : list nat) dest :
  NoDup l → row < rows_lowres → wf dest → row < nrows dest →
  (∀ c, c ∈ l → c < cols_lowres ∧ c < ncols dest ∧ get dest row c = Some nan) →
  ∃ dest',
    for_range l
      (tile_step src xscale yscale thresh (Z.of_nat (xscale * yscale))
         (xscale * yscale) row) dest = Ok dest'
    ∧ nrows dest' = nrows dest ∧ ncols dest' = ncols dest ∧ wf dest'
    ∧ (∀ c, c ∈ l →
         get dest' row c = Some (out_cell src xscale yscale thresh row c))
    ∧ ∀ r c, r ≠ row ∨ c ∉ l → get dest' r c = get dest r c.
Proof.
  intros Hnd Hr. revert dest.
  induction Hnd as [|x l Hx' Hnd IH]; intros dest Hdest Hrow Hl; simpl.
  - exists dest. do 4 (split; [done|]). split; [|done].
    intros c Hc. by apply elem_of_nil in Hc.
  - destruct (Hl x) as (Hxc & Hxn & Hnan); [by left|].
    destruct (tile_step_spec dest row x)
      as (dest1 & -> & Hnr1 & Hnc1 & Hwf1 & Hget1 & Hother1); try done.
    simpl. destruct (IH dest1)
      as (dest2 & -> & Hnr2 & Hnc2 & Hwf2 & Hget2 & Hother2);
      [done|lia| |].
    { intros c Hc. destruct (Hl c) as (? & ? & ?); [by right|].
      split; [done|]. split; [lia|].
      rewrite Hother1; [done|]. right. by intros ->. }
    exists dest2. split; [done|]. split; [lia|]. split; [lia|]. split; [done|].
    split.
    + intros c [->|Hc]%elem_of_cons; [|by apply Hget2].
      rewrite Hother2 by (by right). done.
    + intros r c Hne. rewrite Hother2, Hother1; [done| |].
      * destruct Hne as [?|Hc]; [by left|]. right. intros ->. apply Hc. by left.
      * destruct Hne as [?|Hc]; [by left|]. right. intros ?. apply Hc. by right.
Qed.

(** The outer loop fills the rows in [l]. *)
Lemma outer_loop_spec (l : list nat) dest :
  NoDup l → wf dest → ncols dest = cols_lowres →
  (∀ r, r ∈ l → r < rows_lowres ∧ r < nrows dest
                ∧ ∀ c, c < cols_lowres → get dest r c = Some nan) →
  ∃ dest',
    for_range l
      (λ dest row,
         for_range (seq 0 cols_lowres)
           (tile_step src xscale yscale thresh (Z.of_nat (xscale * yscale))
              (xscale * yscale) row) dest) dest = Ok dest'
    ∧ nrows dest' = nrows dest ∧ ncols dest' = ncols dest ∧ wf dest'
    ∧ (∀ r c, r ∈ l → c < cols_lowres →
         get dest' r c = Some (out_cell src xscale yscale thresh r c))
    ∧ ∀ r c, r ∉ l → get dest' r c = get dest r c.
Proof.
  intros Hnd. revert dest.
  induction Hnd as [|x l Hx' Hnd IH]; intros dest Hdest Hnc Hl; simpl.
  - exists dest. do 4 (split; [done|]). split; [|done].
    intros r c Hr. by apply elem_of_nil in Hr.
  - destruct (Hl x) as (Hxr & Hxn & Hnan); [by left|].
    destruct (inner_loop_spec x (seq 0 cols_lowres) dest)
      as (dest1 & -> & Hnr1 & Hnc1 & Hwf1 & Hget1 & Hother1); try done.
    { apply NoDup_seq. }
    { intros c Hc%elem_of_seq. split; [lia|]. split; [lia|]. apply Hnan. lia. }
    simpl. destruct (IH dest1)
      as (dest2 & -> & Hnr2 & Hnc2 & Hwf2 & Hget2 & Hother2); [done|lia| |].
    { intros r Hr. destruct (Hl r) as (? & ? & Hnan'); [by right|].
      split; [done|]. split; [lia|]. intros c Hc.
      rewrite Hother1; [by apply Hnan'|]. left. by intros ->. }
    exists dest2. split; [done|]. split; [lia|]. split; [lia|]. split; [done|].
    split.
    + intros r c [->|Hr]%elem_of_cons Hc; [|by apply Hget2].
      rewrite Hother2 by done. apply Hget1. apply elem_of_seq. lia.
    + intros r c Hr. rewrite Hother2, Hother1; [done| |].
      * left. intros ->. apply Hr. by left.
      * intros ?. apply Hr. by right.
Qed.

Lemma get_full_nan (r c row col : nat) :
  row < r → col < c → get (full_nan r c) row col = Some nan.
Proof.
  intros Hr Hc. unfold get, full_nan. simpl.
  rewrite lookup_replicate_2 by done. simpl. by rewrite lookup_replicate_2.
Qed.

Lemma wf_full_nan (r c : nat) : wf (full_nan r c).
Proof.
  split; simpl; [by rewrite length_replicate|].
  apply Forall_replicate. by rewrite length_replicate.
Qed.

(** With the threshold in range [multilooking] returns an array of the
    low-resolution shape whose cells are those of the loop body. *)
Lemma multilooking_ok (q : Q) :
  py_int q = thresh →
  (0 ≤ thresh ≤ Z.of_nat (xscale * yscale))%Z →
  ∃ dest,
    multilooking src xscale yscale q = Ok dest
    ∧ nrows dest = rows_lowres ∧ ncols dest = cols_lowres ∧ wf dest
    ∧ ∀ row col, row < rows_lowres → col < cols_lowres →
        get dest row col = Some (out_cell src xscale yscale thresh row col).
Proof.
  intros Hq Hrange. unfold multilooking. rewrite Hq.
  destruct (Z.gtb_spec thresh (Z.of_nat (xscale * yscale))); [lia|].
  destruct (Z.ltb_spec thresh 0); [lia|]. simpl.
  unfold floor_div.
  destruct (Nat.eqb_spec yscale 0); [lia|].
  destruct (Nat.eqb_spec xscale 0); [lia|]. simpl.
  destruct (outer_loop_spec (seq 0 rows_lowres)
              (full_nan rows_lowres cols_lowres))
    as (dest & Hloop & Hnr & Hnc & Hdest & Hget & _).
  - apply NoDup_seq.
  - apply wf_full_nan.
  - done.
  - intros r Hr%elem_of_seq. split; [lia|]. split; [simpl; lia|].
    intros c Hc. apply get_full_nan; lia.
  - exists dest. split; [exact Hloop|]. split; [done|]. split; [done|].
    split; [done|]. intros row col Hr Hc. apply Hget; [|done].
    apply elem_of_seq. lia.
Qed.

End Loops.

(** Two well-formed arrays of one shape with the same cells are equal. *)
Lemma ndarray_ext (a b : ndarray) :
  wf a → wf b → nrows a = nrows b → ncols a = ncols b →
  (∀ r c, r < nrows a → c < ncols a → get a r c = get b r c) →
  a = b.
Proof.
  destruct a as [ra ca da], b as [rb cb db]. simpl.
  intros [Hla Hca] [Hlb Hcb] -> -> Hget. simpl in *. f_equal.
  apply list_eq. intros r. destruct (decide (r < rb)) as [Hr|Hr].
  - destruct (lookup_lt_is_Some_2 da r) as [x Ex]; [lia|].
    destruct (lookup_lt_is_Some_2 db r) as [y Ey]; [lia|].
    rewrite Ex, Ey. f_equal.
    assert (length x = cb) by (by eapply (proj1 (Forall_lookup _ _) Hca)).
    assert (length y = cb) by (by eapply (proj1 (Forall_lookup _ _) Hcb)).
    apply list_eq. intros c. destruct (decide (c < cb)) as [Hc|Hc].
    + specialize (Hget r c Hr Hc). unfold get in Hget. simpl in Hget.
      by rewrite Ex, Ey in Hget.
    + by rewrite !lookup_ge_None_2 by lia.
  - by rewrite !lookup_ge_None_2 by lia.
Qed.

Lemma py_int_inject_Z (z : Z) : py_int (inject_Z z) = z.
Proof. unfold py_int. simpl. apply Z.quot_1_r. Qed.

(** [py_int] rounds toward zero: down for a non-negative number, up for
    a negative one. *)
Lemma py_int_trunc (q : Q) :
  py_int q = if Qlt_le_dec q 0 then Qceiling q else Qfloor q.
Proof.
  destruct q as [n d]. unfold py_int, Qceiling, Qfloor. simpl.
  destruct (Qlt_le_dec (n # d) 0) as [Hneg|Hpos].
  - unfold Qlt in Hneg. simpl in Hneg.
    rewrite <- (Z.opp_involutive n) at 1. rewrite Z.quot_opp_l by done.
    rewrite Z.quot_div_nonneg by lia. done.
  - unfold Qle in Hpos. simpl in Hpos. apply Z.quot_div_nonneg; lia.
Qed.

Lemma py_int_range (q : Q) (n : Z) :
  (0 <= q <= inject_Z n)%Q → (0 ≤ py_int q ≤ n)%Z.
Proof.
  destruct q as [a d]. unfold py_int, Qle. simpl. intros [H0 Hn]. split.
  - apply Z.quot_pos; lia.
  - apply Z.quot_le_upper_bound; lia.
Qed.




(** A tile's samples lie in the part of the array the tiles cover. *)
Lemma tile_ext src src' xscale yscale row col :
  1 ≤ xscale → 1 ≤ yscale →
  row < nrows src / yscale → col < ncols src / xscale →
  (∀ r c, r < nrows src / yscale * yscale → c < ncols src / xscale * xscale →
          cell src' r c = cell src r c) →
  tile src' xscale yscale row col = tile src xscale yscale row col.
Proof.
  intros Hx Hy Hr Hc Hagree. unfold tile. f_equal.
  apply list_fmap_ext. intros i dy [-> Hdy]%lookup_seq.
  apply list_fmap_ext. intros k dx [-> Hdx]%lookup_seq. simpl.
  apply Hagree; nia.
Qed.

End Multilooking.

Section MultilookingClaims.

Local Open Scope nat_scope.



(** C2: the result has shape [(rows / yscale, cols / xscale)], rounded
    down, and is the same for every input of the same shape that agrees
    on the rows and columns the full tiles cover. *)
Theorem multilooking_shape (src : ndarray) (xscale yscale : nat) (thresh : Q)
    (Hwf : wf src) (Hx : 1 ≤ xscale) (Hy : 1 ≤ yscale)
    (Hthresh : (0 ≤ py_int thresh ≤ Z.of_nat (xscale * yscale))%Z) :
  ∃ dest,
    multilooking src xscale yscale thresh = Ok dest
    ∧ nrows dest = nrows src / yscale ∧ ncols dest = ncols src / xscale
    ∧ wf dest
    ∧ ∀ src',
        wf src' → nrows src' = nrows src → ncols src' = ncols src →
        (∀ r c, r < nrows src / yscale * yscale →
                c < ncols src / xscale * xscale →
                cell src' r c = cell src r c) →
        multilooking src' xscale yscale thresh = Ok dest.
Proof.
  destruct (multilooking_ok src xscale yscale (py_int thresh) Hwf Hx Hy thresh)
    as (dest & Hrun & Hnr & Hnc & Hdest & Hget); [done..|].
  exists dest. do 4 (split; [done|]).
  intros src' Hwf' Hnr' Hnc' Hagree.
  destruct (multilooking_ok src' xscale yscale (py_int thresh) Hwf' Hx Hy thresh)
    as (dest' & Hrun' & Hnr2 & Hnc2 & Hdest' & Hget'); [done..|].
  rewrite Hrun'. f_equal. apply ndarray_ext; try done; try congruence.
  intros r c Hr Hc. rewrite Hnr2, Hnr' in Hr. rewrite Hnc2, Hnc' in Hc.
  rewrite Hget' by (by rewrite ?Hnr', ?Hnc'). rewrite Hget by done. f_equal.
  rewrite !out_cell_tile by (by rewrite ?Hnr', ?Hnc'). simpl.
  by rewrite (tile_ext src src').
Qed.

Lemma multilooking_shape_witness :
  ∃ dest,
    multilooking test_data 4 2 0 = Ok dest
    ∧ nrows dest = nrows test_data / 2 ∧ ncols dest = ncols test_data / 4
    ∧ wf dest
    ∧ ∀ src',
        wf src' → nrows src' = nrows test_data → ncols src' = ncols test_data →
        (∀ r c, r < nrows test_data / 2 * 2 →
                c < ncols test_data / 4 * 4 →
                cell src' r c = cell test_data r c) →
        multilooking src' 4 2 0 = Ok dest.
Proof.
  apply (multilooking_shape test_data 4 2 0).
  - split; [reflexivity|]. repeat constructor.
  - lia.
  - lia.
  - vm_compute. split; discriminate.
Defined.




(** C4, as the code has it: [multilooking] raises ValueError exactly when
    the threshold truncated by [int] is outside [[0, xscale * yscale]], and
    returns an array otherwise.  So it returns an array for every
    threshold inside the interval, and for an integer threshold it raises
    exactly when the threshold itself is outside the interval. *)
Theorem multilooking_value_error (src : ndarray) (xscale yscale : nat)
    (thresh : Q) (Hwf : wf src) (Hx : 1 ≤ xscale) (Hy : 1 ≤ yscale) :
  (multilooking src xscale yscale thresh = Raise ValueError
   ↔ ¬ (0 ≤ py_int thresh ≤ Z.of_nat (xscale * yscale))%Z)
  ∧ ((0 ≤ py_int thresh ≤ Z.of_nat (xscale * yscale))%Z →
     ∃ dest, multilooking src xscale yscale thresh = Ok dest)
  ∧ ((0 <= thresh <= inject_Z (Z.of_nat (xscale * yscale)))%Q →
     ∃ dest, multilooking src xscale yscale thresh = Ok dest)
  ∧ ∀ z : Z,
      multilooking src xscale yscale (inject_Z z) = Raise ValueError
      ↔ ¬ (0 ≤ z ≤ Z.of_nat (xscale * yscale))%Z.
Proof.
  assert (Hiff : ∀ q : Q,
    multilooking src xscale yscale q = Raise ValueError
    ↔ ¬ (0 ≤ py_int q ≤ Z.of_nat (xscale * yscale))%Z).
  { intros q. split.
    - intros Hraise Hrange.
      destruct (multilooking_ok src xscale yscale (py_int q) Hwf Hx Hy q)
        as (dest & Hrun & _); [done..|]. congruence.
    - intros Hout. unfold multilooking.
      destruct (Z.gtb_spec (py_int q) (Z.of_nat (xscale * yscale))); [done|].
      destruct (Z.ltb_spec (py_int q) 0); [done|]. lia. }
  assert (Hok : (0 ≤ py_int thresh ≤ Z.of_nat (xscale * yscale))%Z →
                ∃ dest, multilooking src xscale yscale thresh = Ok dest).
  { intros Hrange.
    destruct (multilooking_ok src xscale yscale (py_int thresh) Hwf Hx Hy thresh)
      as (dest & Hrun & _); [done..|]. by exists dest. }
  split; [apply Hiff|]. split; [done|]. split.
  - intros Hrange. by apply Hok, py_int_range.
  - intros z. rewrite Hiff. by rewrite py_int_inject_Z.
Qed.

Lemma multilooking_value_error_witness :
  (multilooking ones_1_1 2 2 10 = Raise ValueError
   ↔ ¬ (0 ≤ py_int 10 ≤ Z.of_nat (2 * 2))%Z)
  ∧ ((0 ≤ py_int 10 ≤ Z.of_nat (2 * 2))%Z →
     ∃ dest, multilooking ones_1_1 2 2 10 = Ok dest)
  ∧ ((0 <= 10 <= inject_Z (Z.of_nat (2 * 2)))%Q →
     ∃ dest, multilooking ones_1_1 2 2 10 = Ok dest)
  ∧ ∀ z : Z,
      multilooking ones_1_1 2 2 (inject_Z z) = Raise ValueError
      ↔ ¬ (0 ≤ z ≤ Z.of_nat (2 * 2))%Z.
Proof.
  apply (multilooking_value_error ones_1_1 2 2 10).
  - split; [reflexivity|]. repeat constructor.
  - lia.
  - lia.
Defined.

(** C4 as stated fails: the threshold -0.5 is outside [[0, 4]], yet the
    call returns an array. *)
Lemma multilooking_minus_half_accepted :
  wf ones_1_1
  ∧ multilooking ones_1_1 2 2 (-1 # 2) = Ok (mk_ndarray 0 0 [])
  ∧ ¬ (0 <= -1 # 2)%Q
  ∧ ¬ (multilooking ones_1_1 2 2 (-1 # 2) = Raise ValueError
       ↔ ¬ (0 <= -1 # 2 <= inject_Z (Z.of_nat (2 * 2)))%Q).
Proof.
  assert (Hneg : ¬ (0 <= -1 # 2)%Q) by (intros H; by apply H).
  split; [|split; [|split]].
  - split; [reflexivity|]. repeat constructor.
  - vm_compute. reflexivity.
  - done.
  - intros [_ Hraise]. assert (Hout : ¬ (0 <= -1 # 2 <= inject_Z (Z.of_nat (2 * 2)))%Q)
      by (intros [H _]; by apply Hneg).
    apply Hraise in Hout. vm_compute in Hout. discriminate.
Qed.

(** In [test_nan_threshold] the fraction counts NaNs, not valid samples:
    the tile of columns 2 and 3 has 3 valid samples of 4, which is at least
    0.25 * 4, and the test expects NaN for it at the threshold 0.25. *)
Example test_nan_threshold_quarter :
  count_valid (tile nan_threshold_data 2 2 0 1) = 3%Z
  ∧ ((1 # 4) * inject_Z (Z.of_nat (2 * 2))
     <= inject_Z (count_valid (tile nan_threshold_data 2 2 0 1)))%Q
  ∧ nan_threshold_expected_quarter !! 1 = Some nan.
Proof.
  split; [vm_compute; reflexivity|]. split; [|reflexivity].
  vm_compute. discriminate.
Qed.

(** [LocalMultilookTests.test_multilooking_thresh]: for each threshold
    the result equals the expected row, reshaped to the result's shape. *)
Example test_multilooking_thresh :
  let one : sample := Some 1%Q in
  (λ '(thresh, exp),
     match multilooking test_data 3 3 thresh with
     | Ok res => array_equal res (mk_ndarray (nrows res) (ncols res) [exp])
     | Raise _ => false
     end)
    <$> [(6%Q, [nan; nan]); (5%Q, [one; nan]); (4%Q, [one; one])]
  = [true; true; true].
Proof. vm_compute. reflexivity. Qed.

End MultilookingClaims.

(** * Properties of [mlooked_path] *)

Section OutputNamer.

Local Open Scope string_scope.

Implicit Types (s t p : string) (c : ascii).

Lemma append_cons c s t : String c s +:+ t = String c (s +:+ t).
Proof. reflexivity. Qed.

Lemma append_assoc s t u : (s +:+ t) +:+ u = s +:+ t +:+ u.
Proof.
  induction s as [|c s IH]; [done|]. by rewrite !append_cons, IH.
Qed.

Lemma append_length s t :
  String.length (s +:+ t) = (String.length s + String.length t)%nat.
Proof.
  induction s as [|c s IH]; [done|]. rewrite append_cons. simpl. by rewrite IH.
Qed.

Lemma contains_append c s t :
  contains c (s +:+ t) = contains c s || contains c t.
Proof.
  induction s as [|c' s IH]; [done|]. rewrite append_cons. simpl.
  by destruct (decide (c' = c)).
Qed.

(** ** The three passes of [splitext] *)

Lemma rsplit_sep_no_sep s : contains "/" s = false → rsplit_sep s = ("", s).
Proof.
  induction s as [|c s IH]; [done|]. simpl.
  destruct (decide (c = "/"%char)); [done|]. intros Hs. by rewrite IH.
Qed.

Lemma rsplit_sep_append s t :
  contains "/" t = false →
  rsplit_sep (s +:+ t) = ((rsplit_sep s).1, (rsplit_sep s).2 +:+ t).
Proof.
  intros Ht. induction s as [|c s IH]; [by rewrite rsplit_sep_no_sep|].
  rewrite append_cons. simpl. rewrite IH.
  destruct (rsplit_sep s) as [[|h0 head] tail]; simpl; [|done].
  by destruct (decide (c = "/"%char)).
Qed.

Lemma rsplit_sep_join s : (rsplit_sep s).1 +:+ (rsplit_sep s).2 = s.
Proof.
  induction s as [|c s IH]; [done|]. simpl.
  destruct (rsplit_sep s) as [[|h0 head] tail]; simpl in *.
  - destruct (decide (c = "/"%char)); simpl; rewrite <- IH; done.
  - by rewrite append_cons, IH.
Qed.

Lemma span_dots_append s c t u :
  c ≠ "."%char →
  span_dots ((s +:+ String c t) +:+ u)
  = ((span_dots (s +:+ String c t)).1, (span_dots (s +:+ String c t)).2 +:+ u).
Proof.
  intros Hc. induction s as [|d s IH].
  - change ("" +:+ String c t) with (String c t). rewrite append_cons. simpl.
    rewrite !decide_False by done. reflexivity.
  - rewrite !append_cons. simpl. destruct (decide (d = "."%char)); [|done].
    rewrite IH. by destruct (span_dots (s +:+ String c t)).
Qed.

Lemma span_dots_join s : (span_dots s).1 +:+ (span_dots s).2 = s.
Proof.
  induction s as [|c s IH]; [done|]. simpl.
  destruct (decide (c = "."%char)); [|done].
  destruct (span_dots s) as [dots rest]. simpl in *.
  by rewrite append_cons, IH.
Qed.

Lemma rsplit_dot_no_dot s : contains "." s = false → rsplit_dot s = (s, "").
Proof.
  induction s as [|c s IH]; [done|]. simpl.
  destruct (decide (c = "."%char)); [done|]. intros Hs. by rewrite IH.
Qed.

Lemma rsplit_dot_append s e :
  contains "." e = false →
  rsplit_dot (s +:+ String "." e) = (s, String "." e).
Proof.
  intros He. induction s as [|c s IH].
  - change ("" +:+ String "." e) with (String "."%char e). simpl.
    by rewrite rsplit_dot_no_dot.
  - rewrite append_cons. simpl. by rewrite IH.
Qed.

(** A path whose last component has a character other than a dot, followed
    by an extension, splits into the two. *)
Lemma splitext_append p c t e :
  c ≠ "."%char → c ≠ "/"%char → contains "/" t = false →
  contains "." e = false → contains "/" e = false →
  splitext ((p +:+ String c t) +:+ String "." e)
  = (p +:+ String c t, String "." e).
Proof.
  intros Hdot Hsep Ht He Hes. unfold splitext.
  rewrite rsplit_sep_append by (simpl; by rewrite Hes).
  rewrite (rsplit_sep_append p (String c t))
    by (simpl; by rewrite decide_False by done).
  pose proof (rsplit_sep_join p) as Hjoin.
  destruct (rsplit_sep p) as [dir name]. simpl in *.
  rewrite span_dots_append by done.
  pose proof (span_dots_join (name +:+ String c t)) as Hname.
  destruct (span_dots (name +:+ String c t)) as [dots rest]. simpl in *.
  rewrite rsplit_dot_append by done.
  by rewrite Hname, <- append_assoc, Hjoin.
Qed.

(** ** The decimal form of an integer has no ["/"] *)

Lemma pretty_N_char_not_sep (x : N) : pretty_N_char x ≠ "/"%char.
Proof. unfold pretty_N_char. by repeat case_match. Qed.

Lemma pretty_N_go_no_sep (x : N) s :
  contains "/" s = false → contains "/" (pretty_N_go x s) = false.
Proof.
  revert s. induction (N.lt_wf_0 x) as [x _ IH]. intros s Hs.
  destruct (decide (x = 0%N)) as [->|Hx]; [done|].
  rewrite pretty_N_go_step by lia. apply IH.
  - apply N.div_lt; lia.
  - simpl. by rewrite decide_False by apply pretty_N_char_not_sep.
Qed.

Lemma pretty_N_no_sep (x : N) : contains "/" (pretty x) = false.
Proof.
  unfold pretty, pretty_N. case_decide; [done|]. by apply pretty_N_go_no_sep.
Qed.

Lemma pretty_Z_no_sep (z : Z) : contains "/" (pretty z) = false.
Proof.
  destruct z as [|x|x]; [done| |].
  - apply pretty_N_no_sep.
  - unfold pretty, pretty_Z. rewrite contains_append.
    change (contains "/" (pretty (N.pos x)) = false). apply pretty_N_no_sep.
Qed.

Lemma look_suffix_no_sep (looks crop_out : Z) :
  contains "/" (look_suffix looks crop_out) = false.
Proof.
  unfold look_suffix. rewrite !contains_append, !pretty_Z_no_sep. done.
Qed.

Lemma mlooked_path_split p (looks crop_out : Z) :
  mlooked_path p looks crop_out
  = (splitext p).1 +:+ look_suffix looks crop_out +:+ (splitext p).2.
Proof.
  unfold mlooked_path, look_suffix. destruct (splitext p) as [base ext].
  simpl. by rewrite !append_assoc.
Qed.

(** C9: for a path made of a stem whose last component has a character
    [c] other than a dot, and an extension [.e], the namer inserts
    [_<looks>rlks_<crop>cr] between the two; applied to its own result it
    inserts the suffix a second time, so the two results differ. *)
Theorem mlooked_path_inserts_suffix (p : string) (c : ascii) (t e : string)
    (looks crop_out : Z)
    (Hdot : c ≠ "."%char) (Hsep : c ≠ "/"%char)
    (Ht : contains "/" t = false)
    (He : contains "." e = false) (Hes : contains "/" e = false) :
  let stem := p +:+ String c t in
  let ext := String "." e in
  let suffix := "_" +:+ pretty looks +:+ "rlks_" +:+ pretty crop_out +:+ "cr" in
  mlooked_path (stem +:+ ext) looks crop_out = stem +:+ suffix +:+ ext
  ∧ mlooked_path (mlooked_path (stem +:+ ext) looks crop_out) looks crop_out
    = stem +:+ suffix +:+ suffix +:+ ext
  ∧ mlooked_path (mlooked_path (stem +:+ ext) looks crop_out) looks crop_out
    ≠ mlooked_path (stem +:+ ext) looks crop_out.
Proof.
  intros stem ext suffix. fold (look_suffix looks crop_out) in suffix.
  assert (Hone : mlooked_path (stem +:+ ext) looks crop_out
                 = stem +:+ suffix +:+ ext).
  { rewrite mlooked_path_split. unfold stem, ext.
    by rewrite splitext_append. }
  assert (Htwo : mlooked_path (stem +:+ suffix +:+ ext) looks crop_out
                 = stem +:+ suffix +:+ suffix +:+ ext).
  { rewrite mlooked_path_split. rewrite <- (append_assoc stem suffix ext).
    unfold stem at 1 2, ext. rewrite (append_assoc p), append_cons.
    rewrite splitext_append; try done.
    - simpl. subst stem suffix.
      by repeat (rewrite append_assoc || rewrite append_cons).
    - rewrite contains_append, Ht. apply look_suffix_no_sep. }
  split; [done|]. rewrite Hone, Htwo. split; [done|].
  intros Heq. apply (inj (String.app stem)) in Heq.
  apply (inj (String.app suffix)) in Heq.
  apply (f_equal String.length) in Heq. rewrite append_length in Heq.
  unfold suffix, look_suffix in Heq. rewrite append_cons in Heq.
  simpl in Heq. lia.
Qed.

Lemma mlooked_path_inserts_suffix_witness :
  let stem := "a/" +:+ String "b" "" in
  let ext := String "." "tif" in
  let suffix := "_" +:+ pretty 2%Z +:+ "rlks_" +:+ pretty 4%Z +:+ "cr" in
  mlooked_path (stem +:+ ext) 2 4 = stem +:+ suffix +:+ ext
  ∧ mlooked_path (mlooked_path (stem +:+ ext) 2 4) 2 4
    = stem +:+ suffix +:+ suffix +:+ ext
  ∧ mlooked_path (mlooked_path (stem +:+ ext) 2 4) 2 4
    ≠ mlooked_path (stem +:+ ext) 2 4.
Proof.
  apply (mlooked_path_inserts_suffix "a/" "b" "" "tif" 2 4).
  - discriminate.
  - discriminate.
  - reflexivity.
  - reflexivity.
  - reflexivity.
Defined.

(** The assertions of [test_mlooked_path], and the example of the
    specification applied once and twice. *)
Example test_mlooked_path :
  mlooked_path "geo_060619-061002_unw.tif" 2 4
  = "geo_060619-061002_unw_2rlks_4cr.tif"
  ∧ mlooked_path "some/dir/geo_060619-061002_unw.tif" 4 2
    = "some/dir/geo_060619-061002_unw_4rlks_2cr.tif"
  ∧ mlooked_path "some/dir/geo_060619-061002_4rlks.tif" 4 8
    = "some/dir/geo_060619-061002_4rlks_4rlks_8cr.tif".
Proof. repeat split; vm_compute; reflexivity. Qed.

Example mlooked_path_a_b :
  mlooked_path "a/b.tif" 2 4 = "a/b_2rlks_4cr.tif"
  ∧ mlooked_path "a/b_2rlks_4cr.tif" 2 4 = "a/b_2rlks_4cr_2rlks_4cr.tif".
Proof. split; vm_compute; reflexivity. Qed.

End OutputNamer.

(** * Further properties of [break_number_into_factors] *)

Section FactorizerExtras.

Implicit Types (n i j x y : Z).


(** A factorisation into two factors of at least 2 gives the loop a
    divisor to try: the smaller factor. *)
Lemma factor_pair_tried x y :
  2 ≤ x → x ≤ y → tried (x * y) x ∧ x * y / x = y.
Proof.
  intros Hx Hxy. assert (Hdiv : x * y / x = y).
  { rewrite Z.mul_comm. apply Z.div_mul. lia. }
  split; [|done]. split; [done|]. split; [nia|].
  rewrite Z.mul_comm. apply Z.mod_mul. lia.
Qed.

Lemma tried_factor_pair n j : tried n j → 2 ≤ j ∧ j ≤ n / j ∧ j * (n / j) = n.
Proof.
  intros Hj. pose proof (tried_mul n j Hj) as Hmul.
  destruct Hj as (Hj & Hsq & _). split; [done|]. split; [nia|done].
Qed.


(** With nothing to try the loop returns its state as it got it, without
    a recursive call. *)
Lemma while_loop_no_divisor (fuel : nat)
    (rec : Z → Memo → Z → option (result pyobj * Memo))
    n (memo : Memo) (left : Z) i (best : Z) (bestTuple : list Z) :
  (∀ j, ¬ tried n j) → 2 ≤ i → n < i + Z.of_nat fuel →
  while_loop fuel rec n memo left i best bestTuple
  = Some (Ok (best, bestTuple), memo).
Proof.
  intros Hnone. revert i.
  induction fuel as [|fuel IH]; intros i Hi Hfuel; simpl.
  - by destruct (Z.leb_spec (i * i) n); [nia|].
  - destruct (Z.leb_spec (i * i) n) as [Hsq|]; [|done].
    destruct (Z.eqb_spec (n mod i) 0) as [Hmod|Hmod].
    + by destruct (Hnone i).
    + apply IH; lia.
Qed.


(** X1: when [n = x * y] is below [2 ^ 53], where the float quotient
    [n / i] is exact, and both factors are at least 2, the default call
    returns two factors of [n], each at least 2 and the smaller first,
    whose sum is at most [x + y]: no factorisation of [n] is more nearly
    square than the one returned. *)
Theorem break_number_into_factors_most_square (x y : Z)
    (Hx : 2 ≤ x) (Hy : 2 ≤ y) (Hfloat : x * y < 2 ^ 53) :
  ∃ a b,
    (break_number_into_factors (x * y) ∅ 2 = Some (Ok (PList [a; b]), ∅)
     ∨ break_number_into_factors (x * y) ∅ 2 = Some (Ok (Tuple2 a b), ∅))
    ∧ a * b = x * y ∧ 2 ≤ a ≤ b ∧ a + b ≤ x + y.
Proof.
  assert (Hpair : ∃ m M, 2 ≤ m ∧ m ≤ M ∧ m * M = x * y ∧ m + M = x + y).
  { destruct (Z_le_gt_dec x y); [exists x, y|exists y, x]; lia. }
  destruct Hpair as (m & M & Hm & HmM & Hprod & Hsum).
  destruct (factor_pair_tried m M Hm HmM) as [Htried Hdiv].
  rewrite Hprod in Htried, Hdiv.
  destruct (break_number_into_factors_default (x * y)) as (v & -> & Hres).
  destruct Hres as [Hfour|? Hnone|j ? Hj Hmin ?].
  - exists 2, 2. split; [by right|]. split; [lia|]. split; [lia|]. nia.
  - by destruct (Hnone m).
  - exists j, (x * y / j). split; [by left|].
    destruct (tried_factor_pair _ _ Hj) as (? & ? & ?).
    split; [done|]. split; [lia|]. specialize (Hmin m Htried). lia.
Qed.

Lemma break_number_into_factors_most_square_witness :
  2 ≤ 2 ∧ 2 ≤ 12 ∧ 2 * 12 < 2 ^ 53
  ∧ ∃ a b,
    (break_number_into_factors (2 * 12) ∅ 2 = Some (Ok (PList [a; b]), ∅)
     ∨ break_number_into_factors (2 * 12) ∅ 2 = Some (Ok (Tuple2 a b), ∅))
    ∧ a * b = 2 * 12 ∧ 2 ≤ a ≤ b ∧ a + b ≤ 2 + 12.
Proof.
  split; [lia|]. split; [lia|]. split; [lia|].
  apply (break_number_into_factors_most_square 2 12); lia.
Defined.







(** X5: for a prime, and for any number below 4, the call with an empty
    cache returns the two-element list [[n, 1]] whatever number of
    factors other than 1 is asked for. *)
Theorem break_number_into_factors_no_divisor (n left : Z)
    (Hn : Z.prime n ∨ n < 4) (Hleft : left ≠ 1) :
  break_number_into_factors n ∅ left = Some (Ok (PList [n; 1]), ∅).
Proof.
  assert (Hnone : ∀ j, ¬ tried n j).
  { destruct Hn as [Hp|Hlt]; [intros j; by apply prime_not_tried|].
    intros j (? & ? & _). nia. }
  assert (Hn4 : n ≠ 4).
  { intros ->. apply (Hnone 2). by repeat split. }
  unfold break_number_into_factors. simpl. rewrite lookup_empty.
  destruct (Z.eqb_spec left 1); [done|].
  rewrite while_loop_no_divisor; [|done|done|lia].
  by rewrite decide_False by congruence.
Qed.

Lemma break_number_into_factors_no_divisor_witness :
  break_number_into_factors 3 ∅ 5 = Some (Ok (PList [3; 1]), ∅).
Proof.
  apply (break_number_into_factors_no_divisor 3 5); [|lia].
  left. exact Z.prime_3.
Defined.

End FactorizerExtras.

(** * Further properties of [multilooking] *)

Section MultilookingExtras.

Local Open Scope nat_scope.

Implicit Types (src dest : ndarray) (xscale yscale row col : nat).



(** At scale 1 a tile is its one input cell. *)
Lemma tile_1_1 src row col : tile src 1 1 row col = [cell src row col].
Proof.
  unfold tile. simpl. by rewrite !Nat.mul_1_r, !Nat.add_0_r.
Qed.

(** X6: with a scale factor of 0 the call never returns an array: the
    tile size is 0, so any threshold that [int] does not truncate to 0
    raises ValueError, and otherwise the division by the scale raises
    ZeroDivisionError. *)
Theorem multilooking_zero_scale (src : ndarray) (xscale yscale : nat)
    (thresh : Q) (Hzero : xscale = 0 ∨ yscale = 0) :
  (py_int thresh ≠ 0%Z
   ∧ multilooking src xscale yscale thresh = Raise ValueError)
  ∨ (py_int thresh = 0%Z
     ∧ multilooking src xscale yscale thresh = Raise ZeroDivisionError).
Proof.
  unfold multilooking. replace (xscale * yscale) with 0 by nia.
  change (Z.of_nat 0) with 0%Z.
  destruct (Z.gtb_spec (py_int thresh) 0); [left; split; [lia|reflexivity]|].
  destruct (Z.ltb_spec (py_int thresh) 0); [left; split; [lia|reflexivity]|].
  right. split; [lia|]. simpl. unfold floor_div.
  destruct (Nat.eqb_spec yscale 0); [done|]. simpl.
  destruct (Nat.eqb_spec xscale 0); [done|lia].
Qed.

Lemma multilooking_zero_scale_witness :
  (py_int 0 ≠ 0%Z ∧ multilooking test_data 3 0 0 = Raise ValueError)
  ∨ (py_int 0 = 0%Z ∧ multilooking test_data 3 0 0 = Raise ZeroDivisionError).
Proof. apply (multilooking_zero_scale test_data 3 0 0). right. reflexivity. Defined.

(** X7: with both scale factors 1 and a threshold of 0 or 1 the result
    has the shape of the input, is NaN where the input is NaN, and holds
    a number equal to the input's everywhere else. *)
Theorem multilooking_scale_1 (src : ndarray) (thresh : Q) (Hwf : wf src)
    (Hthresh : (0 ≤ py_int thresh ≤ 1)%Z) :
  ∃ dest,
    multilooking src 1 1 thresh = Ok dest
    ∧ nrows dest = nrows src ∧ ncols dest = ncols src
    ∧ ∀ row col, row < nrows src → col < ncols src →
        match cell src row col with
        | None => get dest row col = Some nan
        | Some q => ∃ q', get dest row col = Some (Some q') ∧ (q' == q)%Q
        end.
Proof.
  destruct (multilooking_ok src 1 1 (py_int thresh) Hwf (le_n 1) (le_n 1) thresh)
    as (dest & Hrun & Hnr & Hnc & _ & Hget); [done|simpl; lia|].
  rewrite Nat.div_1_r in Hnr, Hnc, Hget.
  exists dest. do 3 (split; [done|]). intros row col Hr Hc.
  rewrite Hget by (by rewrite ?Nat.div_1_r).
  rewrite out_cell_tile by (by rewrite ?Nat.div_1_r). simpl.
  rewrite tile_1_1. destruct (cell src row col) as [q|].
  - exists (mean_valid [Some q]). split.
    + change (count_valid [Some q]) with 1%Z.
      by destruct (Z.leb_spec (py_int thresh) 1); [|lia].
    + unfold mean_valid.
      change (Qsum (valid [Some q]) / inject_Z (count_valid [Some q]))%Q
        with ((q + 0) / 1)%Q.
      field.
  - change (count_valid [None]) with 0%Z. simpl.
    by rewrite andb_false_r.
Qed.

Lemma multilooking_scale_1_witness :
  ∃ dest,
    multilooking test_data 1 1 0 = Ok dest
    ∧ nrows dest = nrows test_data ∧ ncols dest = ncols test_data
    ∧ ∀ row col, row < nrows test_data → col < ncols test_data →
        match cell test_data row col with
        | None => get dest row col = Some nan
        | Some q => ∃ q', get dest row col = Some (Some q') ∧ (q' == q)%Q
        end.
Proof.
  apply (multilooking_scale_1 test_data 0).
  - split; [reflexivity|]. repeat constructor.
  - vm_compute. split; discriminate.
Defined.

(** X9: raising the threshold only blanks cells: for two thresholds in
    range, each cell under the larger one is NaN or is the cell under the
    smaller one. *)
Theorem multilooking_threshold_monotone (src : ndarray) (xscale yscale : nat)
    (t1 t2 : Q) (Hwf : wf src) (Hx : 1 ≤ xscale) (Hy : 1 ≤ yscale)
    (H1 : (0 ≤ py_int t1)%Z) (H12 : (py_int t1 ≤ py_int t2)%Z)
    (H2 : (py_int t2 ≤ Z.of_nat (xscale * yscale))%Z) :
  ∃ dest1 dest2,
    multilooking src xscale yscale t1 = Ok dest1
    ∧ multilooking src xscale yscale t2 = Ok dest2
    ∧ ∀ row col, row < nrows src / yscale → col < ncols src / xscale →
        get dest2 row col = Some nan
        ∨ get dest2 row col = get dest1 row col.
Proof.
  destruct (multilooking_ok src xscale yscale (py_int t1) Hwf Hx Hy t1)
    as (dest1 & Hrun1 & _ & _ & _ & Hget1); [done|lia|].
  destruct (multilooking_ok src xscale yscale (py_int t2) Hwf Hx Hy t2)
    as (dest2 & Hrun2 & _ & _ & _ & Hget2); [done|lia|].
  exists dest1, dest2. do 2 (split; [done|]). intros row col Hr Hc.
  rewrite Hget1, Hget2, !out_cell_tile by done. simpl.
  set (n := count_valid (tile src xscale yscale row col)).
  destruct (Z.leb_spec (py_int t2) n); [|by left].
  destruct (Z.leb_spec (py_int t1) n); [by right|lia].
Qed.

Lemma multilooking_threshold_monotone_witness :
  ∃ dest1 dest2,
    multilooking test_data 3 3 4 = Ok dest1
    ∧ multilooking test_data 3 3 5 = Ok dest2
    ∧ ∀ row col, row < nrows test_data / 3 → col < ncols test_data / 3 →
        get dest2 row col = Some nan
        ∨ get dest2 row col = get dest1 row col.
Proof.
  apply (multilooking_threshold_monotone test_data 3 3 4 5).
  - split; [reflexivity|]. repeat constructor.
  - lia.
  - lia.
  - vm_compute. discriminate.
  - vm_compute. discriminate.
  - vm_compute. discriminate.
Defined.



End MultilookingExtras.

(** * Properties of [extents_from_params] *)

Section ExtentsFromParams.

Context {V : Type}.

Implicit Types (params : gmap string V) (keys : list string).

(** The comprehension returns the values of all the keys, or stops at
    the first key the dict lacks. *)
Lemma getitems_Return params keys (vs : list V) :
  getitems params keys = Return vs
  ↔ Forall2 (λ k v, params !! k = Some v) keys vs.
Proof.
  revert vs. induction keys as [|k keys IH]; intros vs; simpl.
  - split; [intros [= <-]; constructor|]. by intros ->%Forall2_nil_inv_l.
  - unfold dict_getitem. destruct (params !! k) as [v|] eqn:Hk.
    + destruct (getitems params keys) as [vs'|e] eqn:Hrest.
      * split.
        -- intros [= <-]. constructor; [done|]. by apply IH.
        -- intros (v' & vs'' & Hv & Hvs & ->)%Forall2_cons_inv_l.
           apply IH in Hvs. by simplify_eq.
      * split; [done|].
        intros (v' & vs'' & Hv & Hvs & ->)%Forall2_cons_inv_l.
        apply IH in Hvs. done.
    + split; [done|].
      intros (v' & vs'' & Hv & Hvs & ->)%Forall2_cons_inv_l. congruence.
Qed.

Lemma getitems_Throw params keys (e : py_error) :
  getitems params keys = Throw e →
  ∃ present k rest,
    keys = present ++ k :: rest ∧ e = KeyError k ∧ params !! k = None
    ∧ Forall (λ k', is_Some (params !! k')) present.
Proof.
  induction keys as [|k keys IH]; simpl; [done|].
  unfold dict_getitem. destruct (params !! k) as [v|] eqn:Hk.
  - destruct (getitems params keys) as [vs'|e'] eqn:Hrest; [done|].
    intros [= ->]. destruct IH as (present & k' & rest & -> & -> & ? & ?); [done|].
    exists (k :: present), k', rest. split; [done|]. split; [done|].
    split; [done|]. constructor; [by eexists|done].
  - intros [= <-]. exists [], k, keys. by repeat split.
Qed.

(** X11: from a dict that holds the four keys, distinct from one another,
    the function returns the four values in the order xfirst, yfirst,
    xlast, ylast, whatever else the dict holds and in whatever order the
    keys were set. *)
Theorem extents_from_params_of_dict (XF YF XL YL : string)
    (xf yf xl yl : V) (other : gmap string V)
    (Hkeys : NoDup [XF; YF; XL; YL]) :
  extents_from_params XF YF XL YL
    (<[XF := xf]> (<[XL := xl]> (<[YF := yf]> (<[YL := yl]> other))))
  = Return (mk_CustomExts xf yf xl yl).
Proof.
  rewrite !NoDup_cons, !not_elem_of_cons in Hkeys.
  destruct Hkeys as ((? & ? & ? & _) & (? & ? & _) & (? & _) & _).
  unfold extents_from_params. simpl. unfold dict_getitem.
  by simplify_map_eq.
Qed.

(** X12: the function fails only with KeyError, for the first of the keys
    xfirst, yfirst, xlast, ylast that the dict lacks; with all four
    present it returns their values. *)
Theorem extents_from_params_key_error (XF YF XL YL : string) params :
  (∀ exts,
     extents_from_params XF YF XL YL params = Return exts
     ↔ params !! XF = Some (xfirst V exts) ∧ params !! YF = Some (yfirst V exts)
       ∧ params !! XL = Some (xlast V exts) ∧ params !! YL = Some (ylast V exts))
  ∧ ∀ e,
      extents_from_params XF YF XL YL params = Throw e →
      ∃ present k rest,
        [XF; YF; XL; YL] = present ++ k :: rest ∧ e = KeyError k
        ∧ params !! k = None
        ∧ Forall (λ k', is_Some (params !! k')) present.
Proof.
  unfold extents_from_params. split.
  - intros [a b c d]. cbn [xfirst yfirst xlast ylast].
    destruct (getitems params [XF; YF; XL; YL]) as [args|e] eqn:Hargs.
    + apply getitems_Return in Hargs.
      apply Forall2_cons_inv_l in Hargs as (a' & args1 & Ha & Hargs & ->).
      apply Forall2_cons_inv_l in Hargs as (b' & args2 & Hb & Hargs & ->).
      apply Forall2_cons_inv_l in Hargs as (c' & args3 & Hc & Hargs & ->).
      apply Forall2_cons_inv_l in Hargs as (d' & args4 & Hd & Hargs & ->).
      apply Forall2_nil_inv_l in Hargs as ->. simpl.
      rewrite Ha, Hb, Hc, Hd. split; [intros ?; by simplify_eq|].
      intros (? & ? & ? & ?). by simplify_eq.
    + split; [done|]. intros (Ha & Hb & Hc & Hd).
      assert (getitems params [XF; YF; XL; YL] = Return [a; b; c; d]) as Hok.
      { apply getitems_Return. by repeat constructor. }
      congruence.
  - intros e.
    destruct (getitems params [XF; YF; XL; YL]) as [args|e'] eqn:Hargs.
    + apply getitems_Return in Hargs.
      apply Forall2_cons_inv_l in Hargs as (a' & args1 & Ha & Hargs & ->).
      apply Forall2_cons_inv_l in Hargs as (b' & args2 & Hb & Hargs & ->).
      apply Forall2_cons_inv_l in Hargs as (c' & args3 & Hc & Hargs & ->).
      apply Forall2_cons_inv_l in Hargs as (d' & args4 & Hd & Hargs & ->).
      by apply Forall2_nil_inv_l in Hargs as ->.
    + intros [= <-]. by apply getitems_Throw.
Qed.

End ExtentsFromParams.

(** [test_extents_from_params], with the keys of pyrate/core/config.py. *)
Lemma extents_from_params_of_dict_witness :
  extents_from_params "ifgxfirst" "ifgyfirst" "ifgxlast" "ifgylast"
    (<["ifgxfirst" := 1%Q]> (<["ifgxlast" := 5%Q]>
       (<["ifgyfirst" := 2%Q]> (<["ifgylast" := 7%Q]> ∅))))
  = Return (mk_CustomExts 1%Q 2%Q 5%Q 7%Q).
Proof.
  apply (extents_from_params_of_dict "ifgxfirst" "ifgyfirst" "ifgxlast"
           "ifgylast" 1%Q 2%Q 5%Q 7%Q ∅).
  refine (bool_decide_unpack (NoDup _) _). vm_compute. exact I.
Defined.

(** * Properties of [delete_tsincr_files] *)

Section DeleteTsincrFiles.

Implicit Types (entries listed : list (string * kind)) (fs : filesystem).

Lemma filter_all {A} (P : A → Prop) `{∀ x, Decision (P x)} (l : list A) :
  Forall P l → filter P l = l.
Proof.
  induction 1 as [|x l Hx Hl IH]; [done|].
  by rewrite filter_cons_True, IH.
Qed.

(** ** [unlink] *)

Lemma unlink_regular (path : string) (before after : list (string * kind)) :
  path ∉ (before ++ after).*1 →
  unlink path (before ++ (path, RegularFile) :: after) = Return (before ++ after).
Proof.
  intros Hfresh. rewrite fmap_app, elem_of_app in Hfresh.
  assert (Hb : Forall (λ e, e.1 ≠ path) before).
  { apply Forall_forall. intros e He ?. apply Hfresh. left.
    apply list_elem_of_fmap. by exists e. }
  assert (Ha : Forall (λ e, e.1 ≠ path) after).
  { apply Forall_forall. intros e He ?. apply Hfresh. right.
    apply list_elem_of_fmap. by exists e. }
  unfold unlink.
  assert (list_find (λ e, e.1 = path) (before ++ (path, RegularFile) :: after)
          = Some (length before, (path, RegularFile))) as ->.
  { apply list_find_Some. split; [by apply list_lookup_middle|].
    split; [done|]. intros j y Hy Hj.
    rewrite lookup_app_l in Hy by done.
    by eapply (proj1 (Forall_lookup _ _) Hb). }
  rewrite filter_app, filter_cons_False by (simpl; by intros []).
  by rewrite !filter_all.
Qed.

Lemma unlink_directory (path : string) (before after : list (string * kind)) :
  path ∉ before.*1 →
  unlink path (before ++ (path, Directory) :: after)
  = Throw (IsADirectoryError path).
Proof.
  intros Hfresh. unfold unlink.
  assert (list_find (λ e, e.1 = path) (before ++ (path, Directory) :: after)
          = Some (length before, (path, Directory))) as ->; [|done].
  apply list_find_Some. split; [by apply list_lookup_middle|].
  split; [done|]. intros j y Hy Hj ?.
  rewrite lookup_app_l in Hy by done. apply Hfresh.
  apply list_elem_of_fmap. exists y. split; [done|].
  by eapply list_elem_of_lookup_2.
Qed.

(** ** The loop *)

Lemma without_tsincr_app (l k : list (string * kind)) :
  without_tsincr (l ++ k) = without_tsincr l ++ without_tsincr k.
Proof. apply filter_app. Qed.

Lemma elem_of_without_tsincr (e : string * kind) (l : list (string * kind)) :
  e ∈ without_tsincr l → e ∈ l.
Proof. unfold without_tsincr. rewrite list_elem_of_filter. tauto. Qed.

(** Over entries whose matches are all regular files the loop removes
    the matches, keeps the rest in order, and goes on. *)
Lemma delete_loop_app (seen l1 l2 : list (string * kind)) :
  NoDup (seen ++ l1 ++ l2).*1 →
  (∀ e, e ∈ l1 → str_in "tsincr" e.1 = true → e.2 = RegularFile) →
  delete_loop (l1 ++ l2) (without_tsincr seen ++ l1 ++ l2)
  = delete_loop l2 (without_tsincr (seen ++ l1) ++ l2).
Proof.
  revert seen. induction l1 as [|[path k] l1 IH]; intros seen Hnd Hfiles.
  - by rewrite app_nil_r.
  - assert (Hstep : NoDup ((seen ++ [(path, k)]) ++ l1 ++ l2).*1).
    { by rewrite <- app_assoc. }
    assert (Hfiles' : ∀ e, e ∈ l1 → str_in "tsincr" e.1 = true
                           → e.2 = RegularFile).
    { intros e He. apply Hfiles. by right. }
    specialize (IH (seen ++ [(path, k)]) Hstep Hfiles').
    rewrite <- (app_assoc seen [(path, k)] l1) in IH. simpl in IH.
    rewrite <- IH. clear IH. simpl.
    destruct (str_in "tsincr" path) eqn:Hmatch.
    + assert (k = RegularFile) as ->.
      { apply (Hfiles (path, k)); [by left|done]. }
      rewrite unlink_regular.
      * rewrite without_tsincr_app. unfold without_tsincr at 3.
        rewrite filter_cons_False by (simpl; congruence).
        rewrite filter_nil, app_nil_r. done.
      * rewrite !fmap_app, fmap_cons in Hnd. simpl in Hnd.
        apply NoDup_app in Hnd as (_ & Hsep & Hrest).
        apply NoDup_cons in Hrest as [Hfresh _].
        rewrite fmap_app, elem_of_app. intros [Hin|Hin].
        -- apply list_elem_of_fmap in Hin as (e & -> & He).
           apply elem_of_without_tsincr in He.
           apply (Hsep e.1); [apply list_elem_of_fmap; by exists e|by left].
        -- by rewrite fmap_app in Hin.
    + rewrite without_tsincr_app. unfold without_tsincr at 3.
      rewrite filter_cons_True by done.
      rewrite filter_nil. by rewrite <- app_assoc.
Qed.

Lemma delete_loop_regular listed :
  NoDup listed.*1 →
  (∀ e, e ∈ listed → str_in "tsincr" e.1 = true → e.2 = RegularFile) →
  delete_loop listed listed = (Return (), without_tsincr listed).
Proof.
  intros Hnd Hfiles.
  pose proof (delete_loop_app [] listed []) as Happ.
  rewrite !app_nil_r in Happ. by apply Happ.
Qed.

Lemma delete_loop_directory (l1 l2 : list (string * kind)) (path : string) :
  NoDup (l1 ++ (path, Directory) :: l2).*1 →
  (∀ e, e ∈ l1 → str_in "tsincr" e.1 = true → e.2 = RegularFile) →
  str_in "tsincr" path = true →
  delete_loop (l1 ++ (path, Directory) :: l2) (l1 ++ (path, Directory) :: l2)
  = (Throw (IsADirectoryError path),
     without_tsincr l1 ++ (path, Directory) :: l2).
Proof.
  intros Hnd Hfiles Hmatch.
  pose proof (delete_loop_app [] l1 ((path, Directory) :: l2)) as Happ.
  simpl in Happ. rewrite Happ by done. simpl. rewrite Hmatch.
  rewrite unlink_directory; [done|].
  rewrite fmap_app in Hnd. apply NoDup_app in Hnd as (_ & Hsep & _).
  intros (e & -> & He)%list_elem_of_fmap.
  apply elem_of_without_tsincr in He.
  apply (Hsep e.1); [apply list_elem_of_fmap; by exists e|by left].
Qed.

Lemma delete_tsincr_files_regular (params : gmap string string) fs
    (out_dir : string) listed :
  params !! "outdir" = Some out_dir → fs !! out_dir = Some listed →
  NoDup listed.*1 →
  (∀ e, e ∈ listed → str_in "tsincr" e.1 = true → e.2 = RegularFile) →
  delete_tsincr_files params fs
  = (Return (), <[out_dir := without_tsincr listed]> fs).
Proof.
  intros Hkey Hdir Hnd Hfiles. unfold delete_tsincr_files, dict_getitem.
  by rewrite Hkey, Hdir, delete_loop_regular.
Qed.

(** ** ["tsincr" in str(file_path)] looks at the whole path *)

Lemma prefix_sep (t a b : string) :
  contains "/" t = false →
  String.prefix t (a +:+ String "/" b) = String.prefix t a.
Proof.
  revert t. induction a as [|x a IH]; intros [|c t] Ht; try done.
  - change ("" +:+ String "/" b) with (String "/"%char b). simpl in *.
    destruct (decide (c = "/"%char)); [done|].
    by destruct (ascii_dec c "/").
  - rewrite append_cons. simpl in *.
    destruct (decide (c = "/"%char)); [done|].
    destruct (ascii_dec c x); [by apply IH|done].
Qed.

Lemma str_in_sep (t a b : string) :
  contains "/" t = false → t ≠ "" →
  str_in t (a +:+ String "/" b) = str_in t a || str_in t b.
Proof.
  intros Ht Hne. induction a as [|x a IH].
  - change ("" +:+ String "/" b) with (String "/"%char b).
    destruct t as [|c t]; [done|]. simpl in *.
    destruct (decide (c = "/"%char)); [done|].
    by destruct (ascii_dec c "/").
  - rewrite append_cons.
    change (str_in t (String x (a +:+ String "/" b)))
      with (String.prefix t (String x (a +:+ String "/" b))
            || str_in t (a +:+ String "/" b)).
    rewrite <- append_cons, prefix_sep, IH by done.
    change (str_in t (String x a))
      with (String.prefix t (String x a) || str_in t a).
    by rewrite !orb_assoc.
Qed.

Lemma str_in_tsincr_path (dir name : string) :
  str_in "tsincr" (dir +:+ "/" +:+ name)
  = str_in "tsincr" dir || str_in "tsincr" name.
Proof. by apply str_in_sep. Qed.

Lemma child_paths_NoDup (dir : string) (names : list (string * kind)) :
  NoDup names.*1 → NoDup (child_paths dir names).*1.
Proof.
  intros Hnd. unfold child_paths. rewrite <- list_fmap_compose.
  rewrite (list_fmap_ext _ ((λ n, dir +:+ "/" +:+ n) ∘ fst) names)
    by (by intros ? []).
  rewrite list_fmap_compose. apply NoDup_fmap_2; [|done].
  intros x y Hxy. apply (inj (String.app dir)) in Hxy.
  by apply (inj (String.app "/")) in Hxy.
Qed.

Lemma without_tsincr_child_paths (dir : string) (names : list (string * kind)) :
  without_tsincr (child_paths dir names)
  = if str_in "tsincr" dir then []
    else child_paths dir (without_tsincr names).
Proof.
  induction names as [|[name k] names IH].
  - by destruct (str_in "tsincr" dir).
  - change (child_paths dir ((name, k) :: names))
      with ((dir +:+ "/" +:+ name, k) :: child_paths dir names).
    unfold without_tsincr in *.
    pose proof (str_in_tsincr_path dir name) as Hp.
    destruct (str_in "tsincr" dir) eqn:Hd.
    + rewrite filter_cons_False; [exact IH|]. simpl. rewrite Hp. done.
    + destruct (str_in "tsincr" name) eqn:Hn.
      * rewrite filter_cons_False by (simpl; by rewrite Hp).
        rewrite (filter_cons_False _ (name, k)) by (simpl; congruence).
        exact IH.
      * rewrite filter_cons_True by (simpl; by rewrite Hp).
        rewrite (filter_cons_True _ (name, k)) by done.
        by rewrite IH.
Qed.

Lemma without_tsincr_NoDup listed :
  NoDup listed.*1 → NoDup (without_tsincr listed).*1.
Proof.
  intros Hnd. eapply sublist_NoDup; [exact Hnd|].
  apply fmap_sublist, sublist_filter.
Qed.

Lemma without_tsincr_idemp listed :
  without_tsincr (without_tsincr listed) = without_tsincr listed.
Proof.
  apply filter_all, Forall_forall. intros e He.
  unfold without_tsincr in He. by apply list_elem_of_filter in He as [? _].
Qed.

Lemma example_names_regular (e : string * kind) :
  e ∈ example_names → e.2 = RegularFile.
Proof.
  intros He. unfold example_names in He.
  repeat (apply elem_of_cons in He as [->|He]; [reflexivity|]).
  by apply elem_of_nil in He.
Qed.

(** X13: in a directory where every entry whose path contains ["tsincr"]
    is a regular file, the call returns, leaves exactly the entries whose
    path does not contain ["tsincr"], in their order, and touches no other
    directory; a second call changes nothing. *)
Theorem delete_tsincr_files_removes_matches (params : gmap string string)
    (fs : filesystem) (out_dir : string) (listed : list (string * kind))
    (Hkey : params !! "outdir" = Some out_dir)
    (Hdir : fs !! out_dir = Some listed)
    (Hnd : NoDup listed.*1)
    (Hfiles : ∀ e, e ∈ listed → str_in "tsincr" e.1 = true
                   → e.2 = RegularFile) :
  delete_tsincr_files params fs
  = (Return (), <[out_dir := without_tsincr listed]> fs)
  ∧ (∀ e, e ∈ without_tsincr listed
          ↔ e ∈ listed ∧ str_in "tsincr" e.1 = false)
  ∧ delete_tsincr_files params (<[out_dir := without_tsincr listed]> fs)
    = (Return (), <[out_dir := without_tsincr listed]> fs).
Proof.
  split; [by apply delete_tsincr_files_regular|]. split.
  - intros e. unfold without_tsincr. rewrite list_elem_of_filter. tauto.
  - rewrite (delete_tsincr_files_regular params _ out_dir
               (without_tsincr listed)).
    + by rewrite without_tsincr_idemp, insert_insert_eq.
    + done.
    + by rewrite lookup_insert_eq.
    + by apply without_tsincr_NoDup.
    + intros e He Hmatch. unfold without_tsincr in He.
      apply list_elem_of_filter in He as [? _]. congruence.
Qed.

Lemma delete_tsincr_files_removes_matches_witness :
  delete_tsincr_files example_params example_fs
  = (Return (),
     <["out" := without_tsincr (child_paths "out" example_names)]> example_fs)
  ∧ (∀ e, e ∈ without_tsincr (child_paths "out" example_names)
          ↔ e ∈ child_paths "out" example_names
            ∧ str_in "tsincr" e.1 = false)
  ∧ delete_tsincr_files example_params
      (<["out" := without_tsincr (child_paths "out" example_names)]> example_fs)
    = (Return (),
       <["out" := without_tsincr (child_paths "out" example_names)]> example_fs).
Proof.
  apply (delete_tsincr_files_removes_matches example_params example_fs "out"
           (child_paths "out" example_names)).
  - reflexivity.
  - reflexivity.
  - refine (bool_decide_unpack (NoDup _) _). vm_compute. exact I.
  - intros e He _. vm_compute in He.
    repeat (apply elem_of_cons in He as [->|He]; [reflexivity|]).
    by apply elem_of_nil in He.
Defined.

(** X14: when an entry whose path contains ["tsincr"] is a directory, the
    call fails there with IsADirectoryError: the matching files listed
    before it are already deleted, and it and everything listed after it
    are left, matching files included. *)
Theorem delete_tsincr_files_stops_at_directory (params : gmap string string)
    (fs : filesystem) (out_dir path : string)
    (before after : list (string * kind))
    (Hkey : params !! "outdir" = Some out_dir)
    (Hdir : fs !! out_dir = Some (before ++ (path, Directory) :: after))
    (Hnd : NoDup (before ++ (path, Directory) :: after).*1)
    (Hfiles : ∀ e, e ∈ before → str_in "tsincr" e.1 = true
                   → e.2 = RegularFile)
    (Hmatch : str_in "tsincr" path = true) :
  delete_tsincr_files params fs
  = (Throw (IsADirectoryError path),
     <[out_dir := without_tsincr before ++ (path, Directory) :: after]> fs).
Proof.
  unfold delete_tsincr_files, dict_getitem.
  by rewrite Hkey, Hdir, delete_loop_directory.
Qed.

Lemma delete_tsincr_files_stops_at_directory_witness :
  delete_tsincr_files example_params
    {["out" := [("out/tsincr_0.tif", RegularFile)]
               ++ ("out/tsincr_old", Directory)
               :: [("out/tsincr_1.tif", RegularFile)]]}
  = (Throw (IsADirectoryError "out/tsincr_old"),
     <["out" := without_tsincr [("out/tsincr_0.tif", RegularFile)]
                ++ ("out/tsincr_old", Directory)
                :: [("out/tsincr_1.tif", RegularFile)]]>
       {["out" := [("out/tsincr_0.tif", RegularFile)]
                  ++ ("out/tsincr_old", Directory)
                  :: [("out/tsincr_1.tif", RegularFile)]]}).
Proof.
  apply (delete_tsincr_files_stops_at_directory example_params _ "out"
           "out/tsincr_old" [("out/tsincr_0.tif", RegularFile)]
           [("out/tsincr_1.tif", RegularFile)]).
  - reflexivity.
  - reflexivity.
  - refine (bool_decide_unpack (NoDup _) _). vm_compute. exact I.
  - intros e He _.
    repeat (apply elem_of_cons in He as [->|He]; [reflexivity|]).
    by apply elem_of_nil in He.
  - reflexivity.
Defined.

(** X15: the test is on the whole path, directory part included.  For a
    directory of regular files with paths [dir/name]: when [dir] itself
    contains ["tsincr"] the call deletes every file; when it does not, the
    call deletes exactly the files whose name contains ["tsincr"]. *)
Theorem delete_tsincr_files_whole_path (params : gmap string string)
    (fs : filesystem) (out_dir dir : string) (names : list (string * kind))
    (Hkey : params !! "outdir" = Some out_dir)
    (Hdir : fs !! out_dir = Some (child_paths dir names))
    (Hnd : NoDup names.*1)
    (Hfiles : ∀ nk, nk ∈ names → nk.2 = RegularFile) :
  delete_tsincr_files params fs
  = (Return (),
     <[out_dir := if str_in "tsincr" dir then []
                  else child_paths dir (without_tsincr names)]> fs).
Proof.
  rewrite <- without_tsincr_child_paths.
  apply delete_tsincr_files_regular; [done|done| |].
  - by apply child_paths_NoDup.
  - intros e (nk & -> & Hnk)%list_elem_of_fmap _. simpl. by apply Hfiles.
Qed.

Lemma delete_tsincr_files_whole_path_witness :
  delete_tsincr_files {["outdir" := "run_tsincr"]}
    {["run_tsincr" := child_paths "run_tsincr" example_names]}
  = (Return (),
     <["run_tsincr" := if str_in "tsincr" "run_tsincr" then []
                       else child_paths "run_tsincr"
                              (without_tsincr example_names)]>
       {["run_tsincr" := child_paths "run_tsincr" example_names]}).
Proof.
  apply (delete_tsincr_files_whole_path {["outdir" := "run_tsincr"]} _
           "run_tsincr" "run_tsincr" example_names).
  - reflexivity.
  - reflexivity.
  - refine (bool_decide_unpack (NoDup _) _). vm_compute. exact I.
  - exact example_names_regular.
Defined.

End DeleteTsincrFiles.
